(** * tinygo-buffers: numeric-to-text and byte-order conversions over
      statically allocated scratch buffers.

    A shallow embedding of the Go sources (the file defining
    [UintToHexIndex] ... [BytesToFloat64LE], the buffer declarations and
    [errors.go]) followed by the properties established about them.

    Conventions of the embedding:
    - a [uintW]/[intW] value is a [Z]; wrap-around is written with [wrap]
      and [swrap];
    - a byte is a [Z] in [0, 256); a byte array is a [list Z] whose length
      never changes;
    - the package-level scratch arrays are the fields of [Buffers], threaded
      explicitly through every function that touches them;
    - a Go slice over a scratch array is a [slice]: the array it aliases and
      its bounds.  Its bytes are read from the current [Buffers] with
      [contents];
    - a run-time panic (index or slice bound out of range) is the outcome
      [Panic]. *)

From Stdlib Require Import String Ascii ZArith List Bool Lia.
From Stdlib Require Import Floats.SpecFloat.
From coqutil Require Import Z.bitblast.
Import ListNotations.
Local Open Scope Z_scope.

(* ------------------------------------------------------------------ *)
(** ** Machine integers *)

(** Conversion to an unsigned [w]-bit integer. *)
Definition wrap (w x : Z) : Z := x mod 2 ^ w.

(** Conversion to a signed [w]-bit integer (two's complement). *)
Definition swrap (w x : Z) : Z := (x + 2 ^ (w - 1)) mod 2 ^ w - 2 ^ (w - 1).

Definition is_uint (w x : Z) : Prop := 0 <= x < 2 ^ w.
Definition is_int64 (x : Z) : Prop := - 2 ^ 63 <= x < 2 ^ 63.

(** The bytes of an ASCII literal. *)
Definition bytes_of (s : string) : list Z :=
  map (fun a => Z.of_N (N_of_ascii a)) (list_ascii_of_string s).

(* ------------------------------------------------------------------ *)
(** ** Outcomes of Go code: a value, or a run-time panic *)

Inductive outcome (A : Type) : Type :=
| Done (a : A)
| Panic.
Arguments Done {A} a.
Arguments Panic {A}.

Definition bind {A B : Type} (m : outcome A) (k : A -> outcome B) : outcome B :=
  match m with
  | Done a => k a
  | Panic => Panic
  end.

Notation "x <- m ;; k" := (bind m (fun x => k))
  (at level 61, m at next level, right associativity).
Notation "' p <- m ;; k" := (bind m (fun p => k))
  (at level 61, p pattern, m at next level, right associativity).

(** [l[i]]: panics when [i] is out of range. *)
Definition index (l : list Z) (i : Z) : outcome Z :=
  if (0 <=? i) && (i <? Z.of_nat (length l))
  then Done (nth (Z.to_nat i) l 0)
  else Panic.

Fixpoint upd (l : list Z) (n : nat) (x : Z) : list Z :=
  match l, n with
  | [], _ => []
  | _ :: t, O => x :: t
  | h :: t, S n' => h :: upd t n' x
  end.

(** [l[i] = x]: panics when [i] is out of range. *)
Definition store (l : list Z) (i : Z) (x : Z) : outcome (list Z) :=
  if (0 <=? i) && (i <? Z.of_nat (length l))
  then Done (upd l (Z.to_nat i) x)
  else Panic.

(** Overwrite [l] from offset [off] with [data] (which fits). *)
Definition blit (l : list Z) (off : nat) (data : list Z) : list Z :=
  firstn off l ++ data ++ skipn (off + length data) l.

(* ------------------------------------------------------------------ *)
(** ** Error codes ([errors.go]) *)

Definition ErrorCode := Z.

(** [tinygoerrors.ErrorCodeNil], the no-error sentinel of the errors
    package the sources import: the zero code. *)
Definition ErrorCodeNil : ErrorCode := 0.

Definition ErrorCodeBuffersStartNumber : Z := 4000.
Definition ErrorCodeBuffersInvalidBufferSize : ErrorCode :=
  ErrorCodeBuffersStartNumber + 0.
Definition ErrorCodeBuffersTooMuchPrecisionDigitsForFloat64 : ErrorCode :=
  ErrorCodeBuffersStartNumber + 1.

(* ------------------------------------------------------------------ *)
(** ** Symbol tables and scratch buffers *)

Definition ASCIIHexDigits : list Z := bytes_of "0123456789ABCDEF".
Definition ASCIIDecimalDigits : list Z := bytes_of "0123456789".

(** The package-level arrays.  [UintToHexBuffer] is [[16]byte] and
    [UintToDecimalBuffer] is [[20]byte] in the declarations. *)
Record Buffers : Type := mkBuffers {
  UintToHexBuffer : list Z;
  UintToDecimalBuffer : list Z;
  IntToDecimalBuffer : list Z;
  Float64ToDecimalBuffer : list Z
}.

(** Modelled from the spec: the declaration of [IntToDecimalBuffer], which
    [IntToDecimal] writes, is not among the sources; the decimal encoder's
    scratch storage is "one 20-byte buffer for decimal output". *)
Definition IntToDecimalBuffer_len : nat := 20.

(** Modelled from the spec: the declaration of [Float64ToDecimalBuffer],
    which [Float64ToDecimal] writes, is not among the sources (they declare
    [Float64Buffer = [8]byte{}]); the float encoder's scratch storage is
    "one 8-byte buffer for float-to-decimal composition". *)
Definition Float64ToDecimalBuffer_len : nat := 8.

(** Arrays have a fixed length. *)
Definition wf (b : Buffers) : Prop :=
  length (UintToHexBuffer b) = 16%nat /\
  length (UintToDecimalBuffer b) = 20%nat /\
  length (IntToDecimalBuffer b) = IntToDecimalBuffer_len /\
  length (Float64ToDecimalBuffer b) = Float64ToDecimalBuffer_len.

(** The zero-initialised arrays at program start. *)
Definition initial : Buffers :=
  mkBuffers (repeat 0 16) (repeat 0 20)
            (repeat 0 IntToDecimalBuffer_len)
            (repeat 0 Float64ToDecimalBuffer_len).

Inductive array : Type := AHex | ADec | AInt | AFloat.

Definition get (b : Buffers) (a : array) : list Z :=
  match a with
  | AHex => UintToHexBuffer b
  | ADec => UintToDecimalBuffer b
  | AInt => IntToDecimalBuffer b
  | AFloat => Float64ToDecimalBuffer b
  end.

Definition set (b : Buffers) (a : array) (l : list Z) : Buffers :=
  match a with
  | AHex => mkBuffers l (UintToDecimalBuffer b) (IntToDecimalBuffer b) (Float64ToDecimalBuffer b)
  | ADec => mkBuffers (UintToHexBuffer b) l (IntToDecimalBuffer b) (Float64ToDecimalBuffer b)
  | AInt => mkBuffers (UintToHexBuffer b) (UintToDecimalBuffer b) l (Float64ToDecimalBuffer b)
  | AFloat => mkBuffers (UintToHexBuffer b) (UintToDecimalBuffer b) (IntToDecimalBuffer b) l
  end.

Definition array_eq_dec (a a' : array) : {a = a'} + {a <> a'}.
Proof. decide equality. Defined.

(** A slice [base[lo:hi]] aliasing one of the arrays. *)
Record slice : Type := mkSlice { base : array; lo : nat; hi : nat }.

Definition len (s : slice) : Z := Z.of_nat (hi s - lo s).

(** The bytes a slice denotes in the current state of the arrays. *)
Definition contents (b : Buffers) (s : slice) : list Z :=
  firstn (hi s - lo s) (skipn (lo s) (get b (base s))).

(** [a[i:]]: panics unless [0 <= i <= len(a)]. *)
Definition slice_from (b : Buffers) (a : array) (i : Z) : outcome slice :=
  if (0 <=? i) && (i <=? Z.of_nat (length (get b a)))
  then Done (mkSlice a (Z.to_nat i) (length (get b a)))
  else Panic.

(** [a[:j]]: panics unless [0 <= j <= len(a)]. *)
Definition slice_to (b : Buffers) (a : array) (j : Z) : outcome slice :=
  if (0 <=? j) && (j <=? Z.of_nat (length (get b a)))
  then Done (mkSlice a 0 (Z.to_nat j))
  else Panic.

(** The builtin [copy(dst, src)]: moves [min(len(dst), len(src))] bytes;
    the source is read before the destination is written, so overlapping
    slices of one array are handled as by memmove. *)
Definition copy (b : Buffers) (dst src : slice) : Buffers :=
  let data := contents b src in
  let n := Nat.min (hi dst - lo dst) (length data) in
  set b (base dst) (blit (get b (base dst)) (lo dst) (firstn n data)).

(* ------------------------------------------------------------------ *)
(** ** Decimal encoder *)

(** The loop [for v > 0 && i > 0 { i--; buf[i] = ASCIIDecimalDigits[v%10];
    v /= 10 }], shared by [UintToDecimal] and [IntToDecimal].  It recurses
    on the cursor [i].  Inside the loop [v] is positive, where Go's
    remainder and quotient are [Z.rem] and [Z.quot] for [uint64] and
    [int64] alike. *)
Fixpoint decimal_loop (i : nat) (v : Z) (buf : list Z) : outcome (nat * list Z) :=
  match i with
  | O => Done (O, buf)
  | S i' =>
    if 0 <? v then
      d <- index ASCIIDecimalDigits (Z.rem v 10) ;;
      buf' <- store buf (Z.of_nat i') d ;;
      decimal_loop i' (Z.quot v 10) buf'
    else Done (i, buf)
  end.

(** [if v == 0 { i--; buf[i] = ASCIIDecimalDigits[0] }]. *)
Definition decimal_zero (i : nat) (v : Z) (buf : list Z) : outcome (nat * list Z) :=
  if v =? 0 then
    d <- index ASCIIDecimalDigits 0 ;;
    buf' <- store buf (Z.of_nat i - 1) d ;;
    Done (Nat.pred i, buf')
  else Done (i, buf).

Definition UintToDecimal (b : Buffers) (value : Z) : outcome (slice * Buffers) :=
  let i := length (UintToDecimalBuffer b) in
  let v := value in
  '(i, buf) <- decimal_zero i v (UintToDecimalBuffer b) ;;
  '(i, buf) <- decimal_loop i v buf ;;
  let b' := set b ADec buf in
  s <- slice_from b' ADec (Z.of_nat i) ;;
  Done (s, b').

Definition IntToDecimal (b : Buffers) (value : Z) : outcome (slice * Buffers) :=
  let i := length (IntToDecimalBuffer b) in
  let negative := value <? 0 in
  let v := value in
  let v := if negative then swrap 64 (- v) else v in
  '(i, buf) <- decimal_zero i v (IntToDecimalBuffer b) ;;
  '(i, buf) <- decimal_loop i v buf ;;
  '(i, buf) <- (if negative && (0 <? Z.of_nat i)
                then buf' <- store buf (Z.of_nat i - 1) 45 ;;
                     Done (Nat.pred i, buf')
                else Done (i, buf)) ;;
  let b' := set b AInt buf in
  s <- slice_from b' AInt (Z.of_nat i) ;;
  Done (s, b').

(** [for i := 0; i < pad; i++ { UintToDecimalBuffer[i] = ASCIIDecimalDigits[0] }],
    as [n] remaining iterations from index [i]. *)
Fixpoint zero_fill (n : nat) (i : Z) (buf : list Z) : outcome (list Z) :=
  match n with
  | O => Done buf
  | S n' =>
    d <- index ASCIIDecimalDigits 0 ;;
    buf' <- store buf i d ;;
    zero_fill n' (i + 1) buf'
  end.

Definition UintToDecimalFixed (b : Buffers) (value : Z) (width : Z)
  : outcome (slice * Buffers) :=
  '(buffer, b) <- UintToDecimal b (wrap 64 value) ;;
  let pad := width - len buffer in
  if pad <=? 0 then Done (buffer, b)
  else
    dst <- slice_from b ADec pad ;;
    let b := copy b dst buffer in
    buf <- zero_fill (Z.to_nat pad) 0 (UintToDecimalBuffer b) ;;
    let b := set b ADec buf in
    s <- slice_to b ADec width ;;
    Done (s, b).


(* ------------------------------------------------------------------ *)
(** ** Hex encoder *)

(** [size/4] is Go's truncating integer division. *)
Definition UintToHexIndex (value size pos : Z) : Z :=
  if (pos <? 0) || (pos >? Z.quot size 4 - 1) then -1
  else
    let shift := (Z.quot size 4 - 1 - pos) * 4 in
    Z.land (Z.shiftr value shift) 15.

(** The indices [for c := range a] visits. *)
Definition range (n : nat) : list Z := map Z.of_nat (seq 0 n).

(** The body of [for c := range UintToHexBuffer { ... }] over the indices
    still to visit. *)
Fixpoint hex_loop (value size : Z) (cs : list Z) (buf : list Z) : outcome (list Z) :=
  match cs with
  | [] => Done buf
  | c :: cs' =>
    let index_ := UintToHexIndex value size c in
    if 0 <=? index_ then
      g <- index ASCIIHexDigits index_ ;;
      buf' <- store buf c g ;;
      hex_loop value size cs' buf'
    else hex_loop value size cs' buf
  end.

(** The four encoders differ only in the size constant and in the bound of
    the returned slice. *)
Definition hex_encode (size : Z) (bound : Z) (b : Buffers) (value : Z)
  : outcome (slice * Buffers) :=
  buf <- hex_loop value size (range (length (UintToHexBuffer b))) (UintToHexBuffer b) ;;
  let b' := set b AHex buf in
  s <- slice_to b' AHex bound ;;
  Done (s, b').

Definition Uint8ToHex : Buffers -> Z -> outcome (slice * Buffers) := hex_encode 8 2.
Definition Uint16ToHex : Buffers -> Z -> outcome (slice * Buffers) := hex_encode 16 4.
Definition Uint32ToHex : Buffers -> Z -> outcome (slice * Buffers) := hex_encode 32 8.
Definition Uint64ToHex : Buffers -> Z -> outcome (slice * Buffers) := hex_encode 64 16.

(* ------------------------------------------------------------------ *)
(** ** Float decimal encoder *)

(** [float64] is IEEE-754 binary64, with the operations of the standard
    library's executable specification. *)
Definition float64 : Type := spec_float.
Definition f64_sub : float64 -> float64 -> float64 := SFsub 53 1024.
Definition f64_mul : float64 -> float64 -> float64 := SFmul 53 1024.

(** [float64(z)] for an integer [z]: round to nearest, ties to even. *)
Definition f64_of_int (z : Z) : float64 := binary_normalize 53 1024 z 0 false.

(** The integer a finite float truncates to (toward zero). *)
Definition f64_trunc (x : float64) : option Z :=
  match x with
  | S754_zero _ => Some 0
  | S754_finite s m e => Some (cond_Zopp s (Z.shiftl (Zpos m) e))
  | S754_infinity _ | S754_nan => None
  end.

(** The width of [int], here that of a 64-bit target; conversions of values
    that fit in 32 bits do not depend on it. *)
Definition intSize : Z := 64.

Section FloatEncoder.

(** The language leaves the result of converting a float that the integer
    type cannot represent to the implementation. *)
Variable conv_undef : float64 -> Z.

(** [intW(x)] for a float [x]. *)
Definition float_to_int (w : Z) (x : float64) : Z :=
  match f64_trunc x with
  | Some z => if (- 2 ^ (w - 1) <=? z) && (z <? 2 ^ (w - 1)) then z
              else swrap w (conv_undef x)
  | None => swrap w (conv_undef x)
  end.

(** [for i := 0; i < precision; i++ { ... }] as [n] remaining iterations. *)
Fixpoint frac_loop (n : nat) (fracPart : float64) (idx : Z) (buf : list Z)
  : outcome (Z * list Z) :=
  match n with
  | O => Done (idx, buf)
  | S n' =>
    let fracPart := f64_mul fracPart (f64_of_int 10) in
    let digit := float_to_int intSize fracPart in
    buf' <- store buf idx (wrap 8 (swrap intSize (48 + digit))) ;;
    let idx := idx + 1 in
    let fracPart := f64_sub fracPart (f64_of_int digit) in
    frac_loop n' fracPart idx buf'
  end.

Definition Float64ToDecimal (b : Buffers) (value : float64) (precision : Z)
  : outcome (option slice * ErrorCode * Buffers) :=
  let intPart := float_to_int 64 value in
  let fracPart := f64_sub value (f64_of_int intPart) in
  let idx := 0 in
  '(intBuf, b) <- IntToDecimal b intPart ;;
  dst <- slice_from b AFloat idx ;;
  let b := copy b dst intBuf in
  let idx := idx + len intBuf in
  buf <- store (Float64ToDecimalBuffer b) idx 46 ;;
  let b := set b AFloat buf in
  let idx := idx + 1 in
  if Z.of_nat (length (Float64ToDecimalBuffer b)) - idx <? precision then
    Done (None, ErrorCodeBuffersTooMuchPrecisionDigitsForFloat64, b)
  else
    '(idx, buf) <- frac_loop (Z.to_nat precision) fracPart idx (Float64ToDecimalBuffer b) ;;
    let b := set b AFloat buf in
    s <- slice_to b AFloat idx ;;
    Done (Some s, ErrorCodeNil, b).

End FloatEncoder.

(* ------------------------------------------------------------------ *)
(** ** Byte-order codec *)

(** [b[i] = x0; b[i+1] = x1; ...]. *)
Fixpoint store_seq (b : list Z) (i : Z) (xs : list Z) : outcome (list Z) :=
  match xs with
  | [] => Done b
  | x :: xs' => b' <- store b i x ;; store_seq b' (i + 1) xs'
  end.

(** [byte(v >> k)]. *)
Definition byte_at (v k : Z) : Z := wrap 8 (Z.shiftr v k).

(** [encoding/binary]: each [PutUintW] starts with the bounds check
    [_ = b[W/8-1]] and then stores the bytes in order. *)
Definition BigEndian_PutUint16 (b : list Z) (v : Z) : outcome (list Z) :=
  _ <- index b 1 ;;
  store_seq b 0 [byte_at v 8; byte_at v 0].

Definition BigEndian_PutUint32 (b : list Z) (v : Z) : outcome (list Z) :=
  _ <- index b 3 ;;
  store_seq b 0 [byte_at v 24; byte_at v 16; byte_at v 8; byte_at v 0].

Definition BigEndian_PutUint64 (b : list Z) (v : Z) : outcome (list Z) :=
  _ <- index b 7 ;;
  store_seq b 0 [byte_at v 56; byte_at v 48; byte_at v 40; byte_at v 32;
                 byte_at v 24; byte_at v 16; byte_at v 8; byte_at v 0].

Definition LittleEndian_PutUint16 (b : list Z) (v : Z) : outcome (list Z) :=
  _ <- index b 1 ;;
  store_seq b 0 [byte_at v 0; byte_at v 8].

Definition LittleEndian_PutUint32 (b : list Z) (v : Z) : outcome (list Z) :=
  _ <- index b 3 ;;
  store_seq b 0 [byte_at v 0; byte_at v 8; byte_at v 16; byte_at v 24].

Definition LittleEndian_PutUint64 (b : list Z) (v : Z) : outcome (list Z) :=
  _ <- index b 7 ;;
  store_seq b 0 [byte_at v 0; byte_at v 8; byte_at v 16; byte_at v 24;
                 byte_at v 32; byte_at v 40; byte_at v 48; byte_at v 56].

(** An encoder returns its error code together with the caller's buffer as
    the call leaves it. *)
Definition Uint16ToBytes (value : Z) (buffer : list Z) : outcome (ErrorCode * list Z) :=
  if Z.of_nat (length buffer) <? 2 then Done (ErrorCodeBuffersInvalidBufferSize, buffer)
  else buffer' <- BigEndian_PutUint16 buffer value ;; Done (ErrorCodeNil, buffer').

Definition Uint32ToBytes (value : Z) (buffer : list Z) : outcome (ErrorCode * list Z) :=
  if Z.of_nat (length buffer) <? 4 then Done (ErrorCodeBuffersInvalidBufferSize, buffer)
  else buffer' <- BigEndian_PutUint32 buffer value ;; Done (ErrorCodeNil, buffer').

Definition Uint64ToBytes (value : Z) (buffer : list Z) : outcome (ErrorCode * list Z) :=
  if Z.of_nat (length buffer) <? 8 then Done (ErrorCodeBuffersInvalidBufferSize, buffer)
  else buffer' <- BigEndian_PutUint64 buffer value ;; Done (ErrorCodeNil, buffer').

Definition Uint16ToBytesLE (value : Z) (buffer : list Z) : outcome (ErrorCode * list Z) :=
  if Z.of_nat (length buffer) <? 2 then Done (ErrorCodeBuffersInvalidBufferSize, buffer)
  else buffer' <- LittleEndian_PutUint16 buffer value ;; Done (ErrorCodeNil, buffer').

Definition Uint32ToBytesLE (value : Z) (buffer : list Z) : outcome (ErrorCode * list Z) :=
  if Z.of_nat (length buffer) <? 4 then Done (ErrorCodeBuffersInvalidBufferSize, buffer)
  else buffer' <- LittleEndian_PutUint32 buffer value ;; Done (ErrorCodeNil, buffer').

Definition Uint64ToBytesLE (value : Z) (buffer : list Z) : outcome (ErrorCode * list Z) :=
  if Z.of_nat (length buffer) <? 8 then Done (ErrorCodeBuffersInvalidBufferSize, buffer)
  else buffer' <- LittleEndian_PutUint64 buffer value ;; Done (ErrorCodeNil, buffer').

(** [uintW(data[i]) << k], in [W]-bit arithmetic. *)
Definition shl (w : Z) (d k : Z) : Z := wrap w (Z.shiftl d k).

Definition BytesToUint16 (data : list Z) : outcome (Z * ErrorCode) :=
  if Z.of_nat (length data) <? 2 then Done (0, ErrorCodeBuffersInvalidBufferSize)
  else
    d0 <- index data 0 ;; d1 <- index data 1 ;;
    Done (Z.lor (shl 16 d0 8) d1, ErrorCodeNil).

Definition BytesToUint32 (data : list Z) : outcome (Z * ErrorCode) :=
  if Z.of_nat (length data) <? 4 then Done (0, ErrorCodeBuffersInvalidBufferSize)
  else
    d0 <- index data 0 ;; d1 <- index data 1 ;;
    d2 <- index data 2 ;; d3 <- index data 3 ;;
    Done (Z.lor (Z.lor (Z.lor (shl 32 d0 24) (shl 32 d1 16)) (shl 32 d2 8)) d3,
          ErrorCodeNil).

Definition BytesToUint64 (data : list Z) : outcome (Z * ErrorCode) :=
  if Z.of_nat (length data) <? 8 then Done (0, ErrorCodeBuffersInvalidBufferSize)
  else
    d0 <- index data 0 ;; d1 <- index data 1 ;;
    d2 <- index data 2 ;; d3 <- index data 3 ;;
    d4 <- index data 4 ;; d5 <- index data 5 ;;
    d6 <- index data 6 ;; d7 <- index data 7 ;;
    Done (Z.lor (Z.lor (Z.lor (Z.lor (Z.lor (Z.lor (Z.lor
            (shl 64 d0 56) (shl 64 d1 48)) (shl 64 d2 40)) (shl 64 d3 32))
            (shl 64 d4 24)) (shl 64 d5 16)) (shl 64 d6 8)) d7,
          ErrorCodeNil).

Definition BytesToUint16LE (data : list Z) : outcome (Z * ErrorCode) :=
  if Z.of_nat (length data) <? 2 then Done (0, ErrorCodeBuffersInvalidBufferSize)
  else
    d1 <- index data 1 ;; d0 <- index data 0 ;;
    Done (Z.lor (shl 16 d1 8) d0, ErrorCodeNil).

Definition BytesToUint32LE (data : list Z) : outcome (Z * ErrorCode) :=
  if Z.of_nat (length data) <? 4 then Done (0, ErrorCodeBuffersInvalidBufferSize)
  else
    d3 <- index data 3 ;; d2 <- index data 2 ;;
    d1 <- index data 1 ;; d0 <- index data 0 ;;
    Done (Z.lor (Z.lor (Z.lor (shl 32 d3 24) (shl 32 d2 16)) (shl 32 d1 8)) d0,
          ErrorCodeNil).

Definition BytesToUint64LE (data : list Z) : outcome (Z * ErrorCode) :=
  if Z.of_nat (length data) <? 8 then Done (0, ErrorCodeBuffersInvalidBufferSize)
  else
    d7 <- index data 7 ;; d6 <- index data 6 ;;
    d5 <- index data 5 ;; d4 <- index data 4 ;;
    d3 <- index data 3 ;; d2 <- index data 2 ;;
    d1 <- index data 1 ;; d0 <- index data 0 ;;
    Done (Z.lor (Z.lor (Z.lor (Z.lor (Z.lor (Z.lor (Z.lor
            (shl 64 d7 56) (shl 64 d6 48)) (shl 64 d5 40)) (shl 64 d4 32))
            (shl 64 d3 24)) (shl 64 d2 16)) (shl 64 d1 8)) d0,
          ErrorCodeNil).

(** The codec families, indexed by width and byte order. *)
Inductive width : Type := W16 | W32 | W64.
Inductive order : Type := BigEndian | LittleEndian.

Definition bits (w : width) : Z :=
  match w with W16 => 16 | W32 => 32 | W64 => 64 end.

Definition nbytes (w : width) : nat :=
  match w with W16 => 2 | W32 => 4 | W64 => 8 end.

Definition encode (w : width) (o : order) : Z -> list Z -> outcome (ErrorCode * list Z) :=
  match w, o with
  | W16, BigEndian => Uint16ToBytes
  | W32, BigEndian => Uint32ToBytes
  | W64, BigEndian => Uint64ToBytes
  | W16, LittleEndian => Uint16ToBytesLE
  | W32, LittleEndian => Uint32ToBytesLE
  | W64, LittleEndian => Uint64ToBytesLE
  end.

Definition decode (w : width) (o : order) : list Z -> outcome (Z * ErrorCode) :=
  match w, o with
  | W16, BigEndian => BytesToUint16
  | W32, BigEndian => BytesToUint32
  | W64, BigEndian => BytesToUint64
  | W16, LittleEndian => BytesToUint16LE
  | W32, LittleEndian => BytesToUint32LE
  | W64, LittleEndian => BytesToUint64LE
  end.


(* ------------------------------------------------------------------ *)
(** ** Byte-order codec: signed integers and floats *)

Definition is_int (w x : Z) : Prop := - 2 ^ (w - 1) <= x < 2 ^ (w - 1).

(** The signed encoders convert the value with [uintW(value)] and call the
    unsigned encoder. *)
Definition Int16ToBytes (value : Z) (buffer : list Z) : outcome (ErrorCode * list Z) :=
  Uint16ToBytes (wrap 16 value) buffer.
Definition Int32ToBytes (value : Z) (buffer : list Z) : outcome (ErrorCode * list Z) :=
  Uint32ToBytes (wrap 32 value) buffer.
Definition Int64ToBytes (value : Z) (buffer : list Z) : outcome (ErrorCode * list Z) :=
  Uint64ToBytes (wrap 64 value) buffer.
Definition Int16ToBytesLE (value : Z) (buffer : list Z) : outcome (ErrorCode * list Z) :=
  Uint16ToBytesLE (wrap 16 value) buffer.
Definition Int32ToBytesLE (value : Z) (buffer : list Z) : outcome (ErrorCode * list Z) :=
  Uint32ToBytesLE (wrap 32 value) buffer.
Definition Int64ToBytesLE (value : Z) (buffer : list Z) : outcome (ErrorCode * list Z) :=
  Uint64ToBytesLE (wrap 64 value) buffer.

(** [u, err := decoder(data); if err != ErrorCodeNil { return 0, err };
    return conv(u), ErrorCodeNil], the shape of every signed and float
    decoder. *)
Definition decode_via {A : Type} (decoder : list Z -> outcome (Z * ErrorCode))
           (zero : A) (conv : Z -> A) (data : list Z) : outcome (A * ErrorCode) :=
  '(u, err) <- decoder data ;;
  if negb (err =? ErrorCodeNil) then Done (zero, err)
  else Done (conv u, ErrorCodeNil).

Definition BytesToInt16 : list Z -> outcome (Z * ErrorCode) :=
  decode_via BytesToUint16 0 (swrap 16).
Definition BytesToInt32 : list Z -> outcome (Z * ErrorCode) :=
  decode_via BytesToUint32 0 (swrap 32).
Definition BytesToInt64 : list Z -> outcome (Z * ErrorCode) :=
  decode_via BytesToUint64 0 (swrap 64).
Definition BytesToInt16LE : list Z -> outcome (Z * ErrorCode) :=
  decode_via BytesToUint16LE 0 (swrap 16).
Definition BytesToInt32LE : list Z -> outcome (Z * ErrorCode) :=
  decode_via BytesToUint32LE 0 (swrap 32).
Definition BytesToInt64LE : list Z -> outcome (Z * ErrorCode) :=
  decode_via BytesToUint64LE 0 (swrap 64).

Definition encode_signed (w : width) (o : order)
  : Z -> list Z -> outcome (ErrorCode * list Z) :=
  match w, o with
  | W16, BigEndian => Int16ToBytes
  | W32, BigEndian => Int32ToBytes
  | W64, BigEndian => Int64ToBytes
  | W16, LittleEndian => Int16ToBytesLE
  | W32, LittleEndian => Int32ToBytesLE
  | W64, LittleEndian => Int64ToBytesLE
  end.

Definition decode_signed (w : width) (o : order) : list Z -> outcome (Z * ErrorCode) :=
  match w, o with
  | W16, BigEndian => BytesToInt16
  | W32, BigEndian => BytesToInt32
  | W64, BigEndian => BytesToInt64
  | W16, LittleEndian => BytesToInt16LE
  | W32, LittleEndian => BytesToInt32LE
  | W64, LittleEndian => BytesToInt64LE
  end.

(** [math.Float32bits] and [math.Float64bits]: the IEEE-754 interchange
    encoding with [mw] mantissa bits and [ew] exponent bits: sign, biased
    exponent, mantissa without its leading bit.  A NaN carries no payload
    in [spec_float]; it is encoded as the quiet NaN of [math.NaN]. *)
Definition float_join (mw ew : Z) (s : bool) (E M : Z) : Z :=
  (if s then 2 ^ (ew + mw) else 0) + E * 2 ^ mw + M.

Definition float_bits (mw ew : Z) (x : spec_float) : Z :=
  let bias := 2 ^ (ew - 1) - 1 in
  match x with
  | S754_zero s => float_join mw ew s 0 0
  | S754_infinity s => float_join mw ew s (2 ^ ew - 1) 0
  | S754_nan => float_join mw ew false (2 ^ ew - 1) (2 ^ (mw - 1) + 1)
  | S754_finite s m e =>
    if Zpos m <? 2 ^ mw then float_join mw ew s 0 (Zpos m)
    else float_join mw ew s (e + mw + bias) (Zpos m - 2 ^ mw)
  end.

(** [math.Float32frombits] and [math.Float64frombits]. *)
Definition float_frombits (mw ew : Z) (u : Z) : spec_float :=
  let bias := 2 ^ (ew - 1) - 1 in
  let s := Z.testbit u (ew + mw) in
  let E := (u / 2 ^ mw) mod 2 ^ ew in
  let M := u mod 2 ^ mw in
  if E =? 0 then
    match M with
    | Zpos m => S754_finite s m (1 - bias - mw)
    | _ => S754_zero s
    end
  else if E =? 2 ^ ew - 1 then
    (if M =? 0 then S754_infinity s else S754_nan)
  else
    match M + 2 ^ mw with
    | Zpos m => S754_finite s m (E - bias - mw)
    | _ => S754_nan
    end.

Definition float32 : Type := spec_float.
Definition Float32bits : float32 -> Z := float_bits 23 8.
Definition Float64bits : float64 -> Z := float_bits 52 11.
Definition Float32frombits : Z -> float32 := float_frombits 23 8.
Definition Float64frombits : Z -> float64 := float_frombits 52 11.

Definition Float32ToBytes (value : float32) (buffer : list Z) : outcome (ErrorCode * list Z) :=
  Uint32ToBytes (Float32bits value) buffer.
Definition Float64ToBytes (value : float64) (buffer : list Z) : outcome (ErrorCode * list Z) :=
  Uint64ToBytes (Float64bits value) buffer.
Definition Float32ToBytesLE (value : float32) (buffer : list Z) : outcome (ErrorCode * list Z) :=
  Uint32ToBytesLE (Float32bits value) buffer.
Definition Float64ToBytesLE (value : float64) (buffer : list Z) : outcome (ErrorCode * list Z) :=
  Uint64ToBytesLE (Float64bits value) buffer.

Definition BytesToFloat32 : list Z -> outcome (float32 * ErrorCode) :=
  decode_via BytesToUint32 (S754_zero false) Float32frombits.
Definition BytesToFloat64 : list Z -> outcome (float64 * ErrorCode) :=
  decode_via BytesToUint64 (S754_zero false) Float64frombits.
Definition BytesToFloat32LE : list Z -> outcome (float32 * ErrorCode) :=
  decode_via BytesToUint32LE (S754_zero false) Float32frombits.
Definition BytesToFloat64LE : list Z -> outcome (float64 * ErrorCode) :=
  decode_via BytesToUint64LE (S754_zero false) Float64frombits.

(** The float codec, indexed by byte order; [W32] is [float32] and [W64]
    is [float64]. *)
Inductive float_width : Type := F32 | F64.

Definition float_as_width (f : float_width) : width :=
  match f with F32 => W32 | F64 => W64 end.

Definition float_prec (f : float_width) : Z :=
  match f with F32 => 24 | F64 => 53 end.

Definition float_emax (f : float_width) : Z :=
  match f with F32 => 128 | F64 => 1024 end.

Definition encode_float (f : float_width) (o : order)
  : spec_float -> list Z -> outcome (ErrorCode * list Z) :=
  match f, o with
  | F32, BigEndian => Float32ToBytes
  | F64, BigEndian => Float64ToBytes
  | F32, LittleEndian => Float32ToBytesLE
  | F64, LittleEndian => Float64ToBytesLE
  end.

Definition decode_float (f : float_width) (o : order)
  : list Z -> outcome (spec_float * ErrorCode) :=
  match f, o with
  | F32, BigEndian => BytesToFloat32
  | F64, BigEndian => BytesToFloat64
  | F32, LittleEndian => BytesToFloat32LE
  | F64, LittleEndian => BytesToFloat64LE
  end.

(* ------------------------------------------------------------------ *)
(** ** Vocabulary of the specification *)

(** The value a string of decimal digits denotes, most significant digit
    first. *)
Definition is_digit (c : Z) : Prop := 48 <= c <= 57.

Definition decimal_value (l : list Z) : Z :=
  fold_left (fun acc c => acc * 10 + (c - 48)) l 0.

(** The digits of [v], most significant first, produced with [fuel]
    divisions; no digit at all for [0]. *)
Fixpoint digits (fuel : nat) (v : Z) : list Z :=
  match fuel with
  | O => []
  | S f => if 0 <? v then digits f (v / 10) ++ [48 + v mod 10] else []
  end.

(** The minimal decimal representation of [0 <= v < 10^20]. *)
Definition decimal (v : Z) : list Z :=
  if v =? 0 then [48] else digits 20 v.

(** The value of an uppercase hexadecimal digit. *)
Definition hex_digit_value (c : Z) : option Z :=
  if (48 <=? c) && (c <=? 57) then Some (c - 48)
  else if (65 <=? c) && (c <=? 70) then Some (c - 55)
  else None.

(** The value a string of uppercase hexadecimal digits denotes, most
    significant digit first, continuing from [acc]. *)
Fixpoint hex_value_from (acc : Z) (l : list Z) : option Z :=
  match l with
  | [] => Some acc
  | c :: l' =>
    match hex_digit_value c with
    | Some d => hex_value_from (acc * 16 + d) l'
    | None => None
    end
  end.

Definition hex_value (l : list Z) : option Z := hex_value_from 0 l.

(** The glyph of the nibble [d]. *)
Definition hex_glyph (d : Z) : Z := if d <? 10 then 48 + d else 55 + d.

(** The [n] low nibbles of [v], most significant first. *)
Fixpoint nibbles (n : nat) (v : Z) : list Z :=
  match n with
  | O => []
  | S n' => Z.land (Z.shiftr v (4 * Z.of_nat n')) 15 :: nibbles n' v
  end.

(** The hex encoder family, indexed by input width. *)
Inductive hex_width : Type := H8 | H16 | H32 | H64.

Definition hex_bits (w : hex_width) : Z :=
  match w with H8 => 8 | H16 => 16 | H32 => 32 | H64 => 64 end.

Definition hex_len (w : hex_width) : nat :=
  match w with H8 => 2 | H16 => 4 | H32 => 8 | H64 => 16 end.

Definition UintToHex (w : hex_width) : Buffers -> Z -> outcome (slice * Buffers) :=
  match w with
  | H8 => Uint8ToHex
  | H16 => Uint16ToHex
  | H32 => Uint32ToHex
  | H64 => Uint64ToHex
  end.

(** The [n] low bytes of [v], most significant first. *)
Fixpoint big_endian (n : nat) (v : Z) : list Z :=
  match n with
  | O => []
  | S n' => byte_at v (8 * Z.of_nat n') :: big_endian n' v
  end.

(** The bytes of a [w]-bit value in the given order. *)
Definition wire (w : width) (o : order) (v : Z) : list Z :=
  match o with
  | BigEndian => big_endian (nbytes w) v
  | LittleEndian => rev (big_endian (nbytes w) v)
  end.

(** The bits [k .. w-1] of [u], in place. *)
Definition bits_from (w k u : Z) : Z := Z.shiftl (Z.shiftr (wrap w u) k) k.

(** The [float64] nearest to [m * 2^e]; exact when [m] has at most 53
    bits: [f64_dyadic 3 (-1)] is [1.5] and [f64_dyadic (-9) (-2)] is
    [-2.25]. *)
Definition f64_dyadic (m e : Z) : float64 := binary_normalize 53 1024 m e false.

(** The bytes of the slice a [Float64ToDecimal] call returned, with its
    error code. *)
Definition float_view (r : outcome (option slice * ErrorCode * Buffers))
  : outcome (option (list Z) * ErrorCode) :=
  '(s, e, b) <- r ;;
  Done (match s with Some s => Some (contents b s) | None => None end, e).

(** A byte value. *)
Definition is_byte (d : Z) : Prop := 0 <= d < 256.

(** The bytes an outcome's slice denotes, when the call returned. *)
Definition view (r : outcome (slice * Buffers)) : outcome (list Z) :=
  '(s, b) <- r ;; Done (contents b s).

(* ================================================================== *)
(** * Properties *)

#[local] Arguments Z.add : simpl never.
#[local] Arguments Z.sub : simpl never.
#[local] Arguments Z.mul : simpl never.
#[local] Arguments Z.pow : simpl never.
#[local] Arguments Z.div : simpl never.
#[local] Arguments Z.modulo : simpl never.
#[local] Arguments Z.quot : simpl never.
#[local] Arguments Z.rem : simpl never.
#[local] Arguments Z.of_nat : simpl never.
#[local] Arguments Z.to_nat : simpl never.
#[local] Arguments Z.land : simpl never.
#[local] Arguments Z.lor : simpl never.
#[local] Arguments Z.shiftl : simpl never.
#[local] Arguments Z.shiftr : simpl never.

(* ------------------------------------------------------------------ *)
(** ** Arrays *)

Lemma index_in_range (l : list Z) (i : Z) :
  0 <= i < Z.of_nat (length l) -> index l i = Done (nth (Z.to_nat i) l 0).
Proof.
  intros H. unfold index.
  replace ((0 <=? i) && (i <? Z.of_nat (length l)))%bool with true; [reflexivity|].
  symmetry. apply andb_true_iff. split; [apply Z.leb_le | apply Z.ltb_lt]; lia.
Qed.

Lemma index_out_of_range (l : list Z) (i : Z) :
  i < 0 \/ Z.of_nat (length l) <= i -> index l i = Panic.
Proof.
  intros H. unfold index.
  replace ((0 <=? i) && (i <? Z.of_nat (length l)))%bool with false; [reflexivity|].
  symmetry. apply andb_false_iff.
  destruct H; [left; apply Z.leb_gt | right; apply Z.ltb_ge]; lia.
Qed.

Lemma store_in_range (l : list Z) (n : nat) (x : Z) :
  (n < length l)%nat -> store l (Z.of_nat n) x = Done (upd l n x).
Proof.
  intros H. unfold store.
  replace ((0 <=? Z.of_nat n) && (Z.of_nat n <? Z.of_nat (length l)))%bool with true.
  - now rewrite Nat2Z.id.
  - symmetry. apply andb_true_iff. split; [apply Z.leb_le | apply Z.ltb_lt]; lia.
Qed.

Lemma store_out_of_range (l : list Z) (i x : Z) :
  i < 0 \/ Z.of_nat (length l) <= i -> store l i x = Panic.
Proof.
  intros H. unfold store.
  replace ((0 <=? i) && (i <? Z.of_nat (length l)))%bool with false; [reflexivity|].
  symmetry. apply andb_false_iff.
  destruct H; [left; apply Z.leb_gt | right; apply Z.ltb_ge]; lia.
Qed.

Lemma length_upd (l : list Z) (n : nat) (x : Z) : length (upd l n x) = length l.
Proof.
  revert n. induction l as [|h t IH]; intros [|n]; simpl; auto.
Qed.

Lemma skipn_upd_at (l : list Z) (n : nat) (x : Z) :
  (n < length l)%nat -> skipn n (upd l n x) = x :: skipn (S n) l.
Proof.
  revert n. induction l as [|h t IH]; intros [|n] H; simpl in *; try lia; auto.
  apply IH. lia.
Qed.

Lemma firstn_upd_at (l : list Z) (n : nat) (x : Z) :
  firstn n (upd l n x) = firstn n l.
Proof.
  revert n. induction l as [|h t IH]; intros [|n]; simpl; auto.
  now rewrite IH.
Qed.

Lemma upd_split (l : list Z) (n : nat) (x : Z) :
  (n < length l)%nat -> upd l n x = firstn n l ++ x :: skipn (S n) l.
Proof.
  intros H. rewrite <- (firstn_skipn n (upd l n x)).
  now rewrite firstn_upd_at, skipn_upd_at.
Qed.

(* ------------------------------------------------------------------ *)
(** ** Decimal strings *)

Lemma decimal_value_snoc (l : list Z) (c : Z) :
  decimal_value (l ++ [c]) = decimal_value l * 10 + (c - 48).
Proof. unfold decimal_value. now rewrite fold_left_app. Qed.

Lemma pow10_succ (n : nat) : 10 ^ Z.of_nat (S n) = 10 * 10 ^ Z.of_nat n.
Proof. rewrite Nat2Z.inj_succ, Z.pow_succ_r; lia. Qed.

Lemma digits_zero (fuel : nat) : digits fuel 0 = [].
Proof. destruct fuel; reflexivity. Qed.

Lemma digits_value (fuel : nat) : forall v,
  0 <= v < 10 ^ Z.of_nat fuel -> decimal_value (digits fuel v) = v.
Proof.
  induction fuel as [|f IH]; intros v Hv.
  - simpl in *. unfold decimal_value. simpl. lia.
  - rewrite pow10_succ in Hv. simpl digits.
    destruct (0 <? v) eqn:E.
    + rewrite decimal_value_snoc, IH.
      * pose proof (Z.div_mod v 10 ltac:(lia)). lia.
      * split; [apply Z.div_pos; lia | apply Z.div_lt_upper_bound; lia].
    + apply Z.ltb_ge in E. unfold decimal_value. simpl. lia.
Qed.

Lemma digits_are_digits (fuel : nat) : forall v,
  Forall is_digit (digits fuel v).
Proof.
  induction fuel as [|f IH]; intros v; simpl; [constructor|].
  destruct (0 <? v); [|constructor].
  apply Forall_app. split; [apply IH|].
  constructor; [|constructor]. unfold is_digit.
  pose proof (Z.mod_pos_bound v 10). lia.
Qed.

Lemma digits_nonempty (fuel : nat) (v : Z) :
  0 < v -> (0 < fuel)%nat -> digits fuel v <> [].
Proof.
  intros Hv Hf. destruct fuel as [|f]; [lia|]. simpl.
  apply Z.ltb_lt in Hv. rewrite Hv. intros H.
  apply app_eq_nil in H. destruct H as [_ H]. discriminate.
Qed.

Lemma digits_no_leading_zero (fuel : nat) : forall v,
  0 < v < 10 ^ Z.of_nat fuel -> hd 0 (digits fuel v) <> 48.
Proof.
  induction fuel as [|f IH]; intros v Hv.
  - simpl in Hv. lia.
  - rewrite pow10_succ in Hv. simpl digits.
    replace (0 <? v) with true by (symmetry; apply Z.ltb_lt; lia).
    destruct (Z.eq_dec (v / 10) 0) as [E|E].
    + rewrite E, digits_zero. simpl.
      pose proof (Z.div_mod v 10 ltac:(lia)). lia.
    + assert (Hq : 0 < v / 10 < 10 ^ Z.of_nat f).
      { split.
        - pose proof (Z.div_pos v 10). lia.
        - apply Z.div_lt_upper_bound; lia. }
      assert (Hf : (0 < f)%nat).
      { destruct f; [simpl in Hq; lia | lia]. }
      pose proof (digits_nonempty f (v / 10) (proj1 Hq) Hf) as Hne.
      specialize (IH _ Hq).
      destruct (digits f (v / 10)); [congruence | exact IH].
Qed.

Lemma digits_length (fuel : nat) : forall v (k : nat),
  0 <= v < 10 ^ Z.of_nat k -> (length (digits fuel v) <= k)%nat.
Proof.
  induction fuel as [|f IH]; intros v k Hv; simpl; [lia|].
  destruct (0 <? v) eqn:E; simpl; [|lia].
  apply Z.ltb_lt in E.
  destruct k as [|k]; [simpl in Hv; lia|].
  rewrite pow10_succ in Hv.
  rewrite length_app. simpl.
  assert (length (digits f (v / 10)) <= k)%nat; [|lia].
  apply IH. split; [apply Z.div_pos; lia | apply Z.div_lt_upper_bound; lia].
Qed.

Lemma decimal_glyph (d : Z) :
  0 <= d < 10 -> index ASCIIDecimalDigits d = Done (48 + d).
Proof.
  intros H.
  assert (d = 0 \/ d = 1 \/ d = 2 \/ d = 3 \/ d = 4 \/
          d = 5 \/ d = 6 \/ d = 7 \/ d = 8 \/ d = 9) as C by lia.
  repeat (destruct C as [C|C]; [subst d; reflexivity|]). subst d. reflexivity.
Qed.

(* ------------------------------------------------------------------ *)
(** ** The digit loop *)

(** The loop started at cursor [i] stops at a cursor [j], having written
    the digits [digits i v] in [buf[j:i]] and nothing else. *)
Lemma decimal_loop_spec (i : nat) : forall v buf,
  (i <= length buf)%nat -> 0 <= v ->
  exists j buf',
    decimal_loop i v buf = Done (j, buf') /\
    length buf' = length buf /\
    (j <= i)%nat /\
    skipn j buf' = digits i v ++ skipn i buf.
Proof.
  induction i as [|i IH]; intros v buf Hi Hv.
  - exists O, buf. simpl. auto.
  - cbn [decimal_loop digits].
    destruct (0 <? v) eqn:E.
    + apply Z.ltb_lt in E.
      rewrite Z.rem_mod_nonneg, Z.quot_div_nonneg by lia.
      rewrite decimal_glyph by (apply Z.mod_pos_bound; lia).
      cbn [bind]. rewrite store_in_range by lia. cbn [bind].
      destruct (IH (v / 10) (upd buf i (48 + v mod 10))) as (j & buf' & Hrun & Hlen & Hj & Hskip).
      * rewrite length_upd. lia.
      * apply Z.div_pos; lia.
      * exists j, buf'. rewrite length_upd in Hlen.
        repeat split; auto.
        rewrite Hskip, skipn_upd_at by lia.
        now rewrite <- app_assoc.
    + exists (S i), buf. auto.
Qed.

(** The zero case followed by the loop, on a 20-byte array: the cursor
    ends at [20 - length (decimal v)] and the tail of the array is
    [decimal v]. *)
Lemma decimal_fill (v : Z) (buf : list Z) :
  length buf = 20%nat -> 0 <= v < 10 ^ 20 ->
  exists j buf',
    ('(i, buf0) <- decimal_zero 20 v buf ;; decimal_loop i v buf0) = Done (j, buf') /\
    length buf' = 20%nat /\
    (j <= 20)%nat /\
    skipn j buf' = decimal v.
Proof.
  intros Hlen Hv. unfold decimal_zero, decimal.
  destruct (v =? 0) eqn:E.
  - apply Z.eqb_eq in E. subst v.
    rewrite decimal_glyph by lia. cbn [bind].
    change (Z.of_nat 20 - 1) with (Z.of_nat 19).
    rewrite store_in_range by lia. cbn [bind Nat.pred decimal_loop].
    change (0 <? 0) with false. cbv iota.
    exists 19%nat, (upd buf 19 (48 + 0)).
    rewrite length_upd, skipn_upd_at by lia.
    repeat split; auto; try lia.
    rewrite skipn_all2 by lia. reflexivity.
  - cbn [bind].
    destruct (decimal_loop_spec 20 v buf) as (j & buf' & Hrun & Hlen' & Hj & Hskip); try lia.
    exists j, buf'. repeat split; auto; try lia.
    rewrite Hskip, skipn_all2 by lia. apply app_nil_r.
Qed.

Lemma decimal_length (v : Z) (k : nat) :
  0 <= v < 10 ^ Z.of_nat k -> (0 < k)%nat -> (length (decimal v) <= k)%nat.
Proof.
  intros Hv Hk. unfold decimal. destruct (v =? 0); [simpl; lia|].
  now apply digits_length.
Qed.

Lemma decimal_nonempty (v : Z) : 0 <= v -> decimal v <> [].
Proof.
  intros Hv. unfold decimal. destruct (v =? 0) eqn:E; [discriminate|].
  apply Z.eqb_neq in E. apply digits_nonempty; lia.
Qed.

Lemma skipn_length_eq (l tl : list Z) (j : nat) :
  (j <= length l)%nat -> skipn j l = tl -> j = (length l - length tl)%nat.
Proof.
  intros Hj H. rewrite <- H, length_skipn. lia.
Qed.

(** [UintToDecimal] returns [UintToDecimalBuffer[20 - n:]] holding
    [decimal v], [n] its length, and touches no other array. *)
Lemma UintToDecimal_spec (b : Buffers) (v : Z) :
  wf b -> 0 <= v < 2 ^ 64 ->
  exists buf',
    UintToDecimal b v
      = Done (mkSlice ADec (20 - length (decimal v)) 20, set b ADec buf') /\
    length buf' = 20%nat /\
    skipn (20 - length (decimal v)) buf' = decimal v.
Proof.
  intros (_ & Hd & _) Hv. unfold UintToDecimal. rewrite Hd.
  destruct (decimal_fill v (UintToDecimalBuffer b) Hd) as (j & buf' & Hrun & Hlen & Hj & Hskip);
    [lia|].
  unfold bind in *. 
  destruct (decimal_zero 20 v (UintToDecimalBuffer b)) as [[i0 buf0]|]; [|discriminate].
  rewrite Hrun. unfold slice_from. cbn [get set UintToDecimalBuffer]. rewrite Hlen.
  replace ((0 <=? Z.of_nat j) && (Z.of_nat j <=? Z.of_nat 20))%bool with true
    by (symmetry; apply andb_true_iff; split; apply Z.leb_le; lia).
  rewrite Nat2Z.id.
  assert (j = 20 - length (decimal v))%nat as ->.
  { rewrite <- Hlen. apply skipn_length_eq; [lia | exact Hskip]. }
  exists buf'. repeat split; auto.
Qed.

Lemma contents_tail (b : Buffers) (a : array) (j n : nat) :
  length (get b a) = n ->
  contents b (mkSlice a j n) = skipn j (get b a).
Proof.
  intros H. unfold contents. cbn [hi lo base].
  apply firstn_all2. rewrite length_skipn. lia.
Qed.

(** Replacing an array by one of the same length keeps the state well
    formed. *)
Lemma wf_set (b : Buffers) (a : array) (buf : list Z) :
  wf b -> length buf = length (get b a) -> wf (set b a buf).
Proof.
  intros (H1 & H2 & H3 & H4) H.
  destruct a; cbn [get set] in *; repeat split; cbn; congruence.
Qed.

Lemma wf_initial : wf initial.
Proof. repeat split. Qed.

(* ------------------------------------------------------------------ *)
(** ** Signed decimal encoder *)

(** The representation [IntToDecimal] is documented to produce. *)
Lemma IntToDecimal_spec (b : Buffers) (v : Z) :
  wf b -> - 2 ^ 63 < v < 2 ^ 63 ->
  let repr := if v <? 0 then 45 :: decimal (- v) else decimal v in
  exists buf',
    IntToDecimal b v
      = Done (mkSlice AInt (20 - length repr) 20, set b AInt buf') /\
    length buf' = 20%nat /\
    skipn (20 - length repr) buf' = repr.
Proof.
  intros (_ & _ & Hi & _) Hv repr. unfold IntToDecimal.
  unfold IntToDecimalBuffer_len in Hi. rewrite Hi.
  set (m := if v <? 0 then swrap 64 (- v) else v).
  assert (Hm : 0 <= m < 10 ^ 19 /\ m = Z.abs v).
  { subst m. destruct (v <? 0) eqn:E.
    - apply Z.ltb_lt in E. unfold swrap.
      replace ((- v + 2 ^ (64 - 1)) mod 2 ^ 64) with (- v + 2 ^ (64 - 1))
        by (symmetry; apply Z.mod_small; lia).
      lia.
    - apply Z.ltb_ge in E. lia. }
  destruct Hm as (Hm & Habs).
  destruct (decimal_fill m (IntToDecimalBuffer b) Hi) as (j & buf1 & Hrun & Hlen & Hj & Hskip);
    [lia|].
  pose proof (decimal_length m 19 Hm ltac:(lia)) as Hn.
  pose proof (skipn_length_eq buf1 (decimal m) j ltac:(lia) Hskip) as Hjn.
  rewrite Hlen in Hjn.
  pose proof (decimal_nonempty m (proj1 Hm)) as Hne.
  assert (0 < length (decimal m))%nat as Hpos
    by (destruct (decimal m); [congruence | simpl; lia]).
  unfold bind in Hrun |- *.
  destruct (decimal_zero 20 m (IntToDecimalBuffer b)) as [[i0 buf0]|]; [|discriminate].
  rewrite Hrun.
  destruct (v <? 0) eqn:E.
  - apply Z.ltb_lt in E.
    replace (0 <? Z.of_nat j) with true by (symmetry; apply Z.ltb_lt; lia).
    cbn [andb].
    replace (Z.of_nat j - 1) with (Z.of_nat (Nat.pred j)) by lia.
    rewrite store_in_range by lia.
    unfold slice_from. cbn [get set IntToDecimalBuffer]. rewrite length_upd, Hlen.
    replace ((0 <=? Z.of_nat (Nat.pred j)) && (Z.of_nat (Nat.pred j) <=? Z.of_nat 20))%bool
      with true by (symmetry; apply andb_true_iff; split; apply Z.leb_le; lia).
    rewrite Nat2Z.id.
    assert (Hrepr : repr = 45 :: decimal m).
    { subst repr. f_equal. f_equal. lia. }
    assert (Hp : (20 - length repr = Nat.pred j)%nat).
    { rewrite Hrepr. simpl length. lia. }
    rewrite Hp.
    exists (upd buf1 (Nat.pred j) 45). rewrite length_upd.
    split; [reflexivity|]. split; [assumption|].
    rewrite skipn_upd_at by lia.
    replace (S (Nat.pred j)) with j by lia.
    now rewrite Hskip, Hrepr.
  - apply Z.ltb_ge in E. cbn [andb].
    unfold slice_from. cbn [get set IntToDecimalBuffer]. rewrite Hlen.
    replace ((0 <=? Z.of_nat j) && (Z.of_nat j <=? Z.of_nat 20))%bool with true
      by (symmetry; apply andb_true_iff; split; apply Z.leb_le; lia).
    rewrite Nat2Z.id.
    assert (Hrepr : repr = decimal m) by reflexivity.
    rewrite Hrepr, <- Hjn.
    exists buf1. repeat split; auto.
Qed.

(** For every negative value other than the most negative one, the view
    is the minus sign followed by the minimal decimal digits of the
    magnitude. *)
Lemma IntToDecimal_negative (b : Buffers) (v : Z) :
  wf b -> - 2 ^ 63 < v < 0 ->
  view (IntToDecimal b v) = Done (45 :: decimal (- v)).
Proof.
  intros Hwf Hv.
  destruct (IntToDecimal_spec b v Hwf ltac:(lia)) as (buf' & Hrun & Hlen & Hskip).
  replace (v <? 0) with true in * by (symmetry; apply Z.ltb_lt; lia).
  unfold view. rewrite Hrun. cbn [bind]. f_equal.
  rewrite contents_tail by (cbn [get set IntToDecimalBuffer]; exact Hlen).
  exact Hskip.
Qed.

(** At the most negative value the negation wraps back to the same value,
    the digit loop does not run, and only the sign is written. *)
Lemma IntToDecimal_min (b : Buffers) :
  wf b ->
  IntToDecimal b (- 2 ^ 63)
    = Done (mkSlice AInt 19 20, set b AInt (upd (IntToDecimalBuffer b) 19 45)).
Proof.
  intros (_ & _ & Hi & _). unfold IntToDecimalBuffer_len in Hi.
  unfold IntToDecimal. rewrite Hi.
  change (- 2 ^ 63 <? 0) with true. cbv iota.
  change (swrap 64 (- - 2 ^ 63)) with (- 2 ^ 63).
  unfold decimal_zero. change (- 2 ^ 63 =? 0) with false. cbv iota.
  cbn [bind decimal_loop]. change (0 <? - 2 ^ 63) with false. cbv iota.
  cbn [bind]. change (0 <? Z.of_nat 20) with true. cbn [andb].
  change (Z.of_nat 20 - 1) with (Z.of_nat 19).
  rewrite store_in_range by lia. cbn [bind Nat.pred].
  unfold slice_from. cbn [get set IntToDecimalBuffer]. rewrite length_upd, Hi.
  reflexivity.
Qed.

(* ------------------------------------------------------------------ *)
(** ** Fixed-width decimal encoder *)

Lemma zero_fill_spec (n : nat) : forall (k : nat) (buf : list Z),
  (k + n <= length buf)%nat ->
  zero_fill n (Z.of_nat k) buf
    = Done (firstn k buf ++ repeat 48 n ++ skipn (k + n) buf).
Proof.
  induction n as [|n IH]; intros k buf H.
  - simpl. now rewrite Nat.add_0_r, firstn_skipn.
  - cbn [zero_fill]. rewrite decimal_glyph by lia. cbn [bind].
    rewrite store_in_range by lia. cbn [bind].
    replace (Z.of_nat k + 1) with (Z.of_nat (S k)) by lia.
    rewrite IH by (rewrite length_upd; lia).
    f_equal. rewrite upd_split by lia.
    rewrite firstn_app, firstn_firstn, length_firstn.
    replace (Nat.min (S k) k) with k by lia.
    replace (Nat.min k (length buf)) with k by lia.
    replace (S k - k)%nat with 1%nat by lia.
    cbn [firstn]. rewrite <- app_assoc. f_equal. cbn [app repeat]. f_equal.
    change (48 + 0) with 48. f_equal.
    rewrite skipn_app, length_firstn.
    replace (Nat.min k (length buf)) with k by lia.
    rewrite (skipn_all2 (firstn k buf)) by (rewrite length_firstn; lia).
    cbn [app]. replace (S k + n - k)%nat with (S n) by lia.
    change (skipn (S n) (48 :: skipn (S k) buf)) with (skipn n (skipn (S k) buf)). rewrite skipn_skipn. f_equal. lia.
Qed.

Lemma length_blit (l : list Z) (off : nat) (data : list Z) :
  (off + length data <= length l)%nat -> length (blit l off data) = length l.
Proof.
  intros H. unfold blit. rewrite !length_app, length_firstn, length_skipn. lia.
Qed.

Lemma skipn_blit (l : list Z) (off : nat) (data : list Z) :
  (off + length data <= length l)%nat ->
  skipn off (blit l off data) = data ++ skipn (off + length data) l.
Proof.
  intros H. unfold blit. rewrite skipn_app, length_firstn.
  replace (Nat.min off (length l)) with off by lia.
  rewrite skipn_all2 by (rewrite length_firstn; lia).
  now rewrite Nat.sub_diag.
Qed.

Lemma slice_from_ok (b : Buffers) (a : array) (i : Z) :
  0 <= i <= Z.of_nat (length (get b a)) ->
  slice_from b a i = Done (mkSlice a (Z.to_nat i) (length (get b a))).
Proof.
  intros H. unfold slice_from.
  replace ((0 <=? i) && (i <=? Z.of_nat (length (get b a))))%bool with true; [reflexivity|].
  symmetry. apply andb_true_iff. split; apply Z.leb_le; lia.
Qed.

Lemma slice_from_panics (b : Buffers) (a : array) (i : Z) :
  Z.of_nat (length (get b a)) < i -> slice_from b a i = Panic.
Proof.
  intros H. unfold slice_from.
  replace (i <=? Z.of_nat (length (get b a))) with false
    by (symmetry; apply Z.leb_gt; lia).
  now rewrite andb_false_r.
Qed.

Lemma slice_to_ok (b : Buffers) (a : array) (j : Z) :
  0 <= j <= Z.of_nat (length (get b a)) ->
  slice_to b a j = Done (mkSlice a 0 (Z.to_nat j)).
Proof.
  intros H. unfold slice_to.
  replace ((0 <=? j) && (j <=? Z.of_nat (length (get b a))))%bool with true; [reflexivity|].
  symmetry. apply andb_true_iff. split; apply Z.leb_le; lia.
Qed.

Lemma slice_to_panics (b : Buffers) (a : array) (j : Z) :
  Z.of_nat (length (get b a)) < j -> slice_to b a j = Panic.
Proof.
  intros H. unfold slice_to.
  replace (j <=? Z.of_nat (length (get b a))) with false
    by (symmetry; apply Z.leb_gt; lia).
  now rewrite andb_false_r.
Qed.

Lemma get_set_same (b : Buffers) (a : array) (l : list Z) : get (set b a l) a = l.
Proof. destruct a; reflexivity. Qed.

Lemma set_set_same (b : Buffers) (a : array) (l l' : list Z) :
  set (set b a l) a l' = set b a l'.
Proof. destruct a; reflexivity. Qed.

(** What [UintToDecimalFixed] does once [UintToDecimal] has returned and
    padding is needed: [n] digits sit at the end of the array [buf'] and
    [p] zeros are asked for. *)
Lemma pad_steps (b : Buffers) (buf' : list Z) (n p : nat) :
  length buf' = 20%nat -> (0 < n <= 20)%nat -> (p <= 20)%nat ->
  let b1 := set b ADec buf' in
  let b2 := copy b1 (mkSlice ADec p 20) (mkSlice ADec (20 - n) 20) in
  let k := Nat.min (20 - p) n in
  exists rest,
    zero_fill p 0 (UintToDecimalBuffer b2)
      = Done (repeat 48 p ++ firstn k (skipn (20 - n) buf') ++ rest) /\
    length (repeat 48 p ++ firstn k (skipn (20 - n) buf') ++ rest) = 20%nat.
Proof.
  intros Hlen Hn Hp b1 b2 k.
  assert (Hc : contents b1 (mkSlice ADec (20 - n) 20) = skipn (20 - n) buf').
  { subst b1. rewrite contents_tail by (rewrite get_set_same; exact Hlen).
    now rewrite get_set_same. }
  assert (Hb2 : UintToDecimalBuffer b2 = blit buf' p (firstn k (skipn (20 - n) buf'))).
  { subst b2. unfold copy. cbn [base lo hi]. rewrite Hc.
    subst b1. rewrite set_set_same.
    change (UintToDecimalBuffer (set b ADec ?l)) with l.
    rewrite get_set_same, length_skipn, Hlen.
    replace (20 - (20 - n))%nat with n by lia. reflexivity. }
  assert (Hk : length (firstn k (skipn (20 - n) buf')) = k).
  { rewrite length_firstn, length_skipn, Hlen. subst k. lia. }
  rewrite Hb2.
  change 0 with (Z.of_nat 0).
  rewrite zero_fill_spec
    by (rewrite length_blit by (rewrite Hk; subst k; lia); lia).
  cbn [firstn app Nat.add].
  rewrite skipn_blit by (rewrite Hk; subst k; lia).
  exists (skipn (p + length (firstn k (skipn (20 - n) buf'))) buf').
  split; [reflexivity|].
  rewrite !length_app, repeat_length, Hk, length_skipn, Hlen. subst k. lia.
Qed.

(** Within the capacity of the array the fixed-width encoder left-pads
    with zeros and never truncates. *)
Lemma UintToDecimalFixed_fits (b : Buffers) (v width : Z) :
  wf b -> 0 <= v < 2 ^ 64 -> width <= 20 ->
  view (UintToDecimalFixed b v width)
    = Done (repeat 48 (Z.to_nat (width - Z.of_nat (length (decimal v)))) ++ decimal v).
Proof.
  intros Hwf Hv Hw. unfold UintToDecimalFixed, wrap.
  rewrite Z.mod_small by lia.
  destruct (UintToDecimal_spec b v Hwf Hv) as (buf' & Hrun & Hlen & Hskip).
  pose proof (decimal_length v 20 ltac:(lia) ltac:(lia)) as Hn20.
  pose proof (decimal_nonempty v (proj1 Hv)) as Hne.
  set (n := length (decimal v)) in *.
  assert (0 < n)%nat as Hn0
    by (subst n; destruct (decimal v); [congruence | simpl; lia]).
  rewrite Hrun. cbn [bind]. unfold len. cbn [hi lo].
  replace (20 - (20 - n))%nat with n by lia.
  destruct (width - Z.of_nat n <=? 0) eqn:E.
  - apply Z.leb_le in E. unfold view. cbn [bind].
    rewrite contents_tail by (rewrite get_set_same; exact Hlen).
    rewrite get_set_same, Hskip.
    replace (Z.to_nat (width - Z.of_nat n)) with 0%nat by lia. reflexivity.
  - apply Z.leb_gt in E.
    set (p := Z.to_nat (width - Z.of_nat n)).
    rewrite slice_from_ok by (rewrite get_set_same; lia).
    rewrite get_set_same, Hlen. cbn [bind]. fold p.
    destruct (pad_steps b buf' n p Hlen ltac:(lia) ltac:(lia)) as (rest & Hfill & Hlen2).
    cbv zeta in Hfill. rewrite Hfill. cbn [bind].
    rewrite slice_to_ok by (rewrite get_set_same, Hlen2; lia).
    unfold view. cbn [bind]. unfold contents. cbn [hi lo base].
    rewrite get_set_same. cbn [skipn]. rewrite Nat.sub_0_r.
    replace (Nat.min (20 - p) n) with n by lia.
    rewrite Hskip, (@firstn_all2 _ n (decimal v)) by (fold n; lia).
    replace (Z.to_nat width) with (p + n)%nat by lia.
    f_equal. rewrite app_assoc.
    rewrite firstn_app, firstn_all2 by (rewrite length_app, repeat_length; fold n; lia).
    rewrite length_app, repeat_length. fold n.
    replace (p + n - (p + n))%nat with 0%nat by lia.
    cbn [firstn]. now rewrite app_nil_r.
Qed.

(** Beyond the capacity of the array the fixed-width encoder panics: at
    [UintToDecimalBuffer[pad:]] when the padding alone exceeds the array,
    at [UintToDecimalBuffer[:width]] otherwise. *)
Lemma UintToDecimalFixed_wide (b : Buffers) (v width : Z) :
  wf b -> 0 <= v < 2 ^ 64 -> 20 < width ->
  UintToDecimalFixed b v width = Panic.
Proof.
  intros Hwf Hv Hw. unfold UintToDecimalFixed, wrap.
  rewrite Z.mod_small by lia.
  destruct (UintToDecimal_spec b v Hwf Hv) as (buf' & Hrun & Hlen & Hskip).
  pose proof (decimal_length v 20 ltac:(lia) ltac:(lia)) as Hn20.
  pose proof (decimal_nonempty v (proj1 Hv)) as Hne.
  set (n := length (decimal v)) in *.
  assert (0 < n)%nat as Hn0
    by (subst n; destruct (decimal v); [congruence | simpl; lia]).
  rewrite Hrun. cbn [bind]. unfold len. cbn [hi lo].
  replace (20 - (20 - n))%nat with n by lia.
  replace (width - Z.of_nat n <=? 0) with false by (symmetry; apply Z.leb_gt; lia).
  destruct (Z_le_gt_dec (width - Z.of_nat n) 20) as [Hp|Hp].
  - set (p := Z.to_nat (width - Z.of_nat n)).
    rewrite slice_from_ok by (rewrite get_set_same; lia).
    rewrite get_set_same, Hlen. cbn [bind]. fold p.
    destruct (pad_steps b buf' n p Hlen ltac:(lia) ltac:(lia)) as (rest & Hfill & Hlen2).
    cbv zeta in Hfill. rewrite Hfill. cbn [bind].
    rewrite slice_to_panics by (rewrite get_set_same, Hlen2; lia).
    reflexivity.
  - rewrite slice_from_panics by (rewrite get_set_same; lia).
    reflexivity.
Qed.

(* ------------------------------------------------------------------ *)
(** ** The decimal encoder family *)

(** [decimal v] is the minimal decimal representation of [v]: a non-empty
    string of digits denoting [v], with no leading zero unless [v] is
    zero, when it is the single digit ["0"]. *)
Lemma decimal_minimal (v : Z) :
  0 <= v < 10 ^ 20 ->
  decimal v <> [] /\
  Forall is_digit (decimal v) /\
  decimal_value (decimal v) = v /\
  (v <> 0 -> hd 0 (decimal v) <> 48) /\
  (v = 0 -> decimal v = bytes_of "0").
Proof.
  intros Hv. split; [apply decimal_nonempty; lia|].
  unfold decimal. destruct (v =? 0) eqn:E.
  - apply Z.eqb_eq in E. subst v. repeat split.
    + constructor; [unfold is_digit; lia | constructor].
    + intros H. congruence.
  - apply Z.eqb_neq in E. repeat split.
    + apply digits_are_digits.
    + apply digits_value. exact Hv.
    + intros _. apply digits_no_leading_zero.
      change (Z.of_nat 20) with 20. lia.
    + intros H. congruence.
Qed.

(** C7: for every uint64 value [v], [UintToDecimal(v)] returns the minimal
    decimal ASCII representation of [v]: digits only, denoting [v], with no
    leading zero unless [v = 0], in which case the result is exactly the
    single byte ["0"]. *)
Theorem UintToDecimal_minimal (b : Buffers) (v : Z) :
  wf b -> is_uint 64 v ->
  exists out,
    view (UintToDecimal b v) = Done out /\
    out <> [] /\
    Forall is_digit out /\
    decimal_value out = v /\
    (v <> 0 -> hd 0 out <> 48) /\
    (v = 0 -> out = bytes_of "0").
Proof.
  intros Hwf Hv. unfold is_uint in Hv.
  destruct (UintToDecimal_spec b v Hwf Hv) as (buf' & Hrun & Hlen & Hskip).
  exists (decimal v). split.
  - unfold view. rewrite Hrun. cbn [bind].
    rewrite contents_tail by (rewrite get_set_same; exact Hlen).
    now rewrite get_set_same, Hskip.
  - apply decimal_minimal. lia.
Qed.

Lemma UintToDecimal_minimal_witness :
  wf initial /\ is_uint 64 1234 /\
  exists out,
    view (UintToDecimal initial 1234) = Done out /\
    out <> [] /\
    Forall is_digit out /\
    decimal_value out = 1234 /\
    (1234 <> 0 -> hd 0 out <> 48) /\
    (1234 = 0 -> out = bytes_of "0").
Proof.
  split; [repeat split|].
  split; [unfold is_uint; lia|].
  apply (UintToDecimal_minimal initial 1234); [repeat split | unfold is_uint; lia].
Defined.

(** C1, at the boundary: [IntToDecimal(-2^63)] negates in [int64], where
    the negation wraps back to [-2^63]; the digit loop, guarded by [v > 0],
    writes nothing, and the view is the lone minus sign instead of the sign
    followed by the digits of [2^63]. *)
Theorem IntToDecimal_min_int64 (b : Buffers) :
  wf b ->
  view (IntToDecimal b (- 2 ^ 63)) = Done (bytes_of "-") /\
  view (IntToDecimal b (- 2 ^ 63)) <> Done (45 :: decimal (2 ^ 63)).
Proof.
  intros Hwf.
  assert (H : view (IntToDecimal b (- 2 ^ 63)) = Done (bytes_of "-")).
  { rewrite (IntToDecimal_min b Hwf). unfold view. cbn [bind].
    destruct Hwf as (_ & _ & Hi & _). unfold IntToDecimalBuffer_len in Hi.
    rewrite contents_tail by (rewrite get_set_same, length_upd; exact Hi).
    rewrite get_set_same, skipn_upd_at by lia.
    rewrite skipn_all2 by lia. reflexivity. }
  split; [exact H|]. rewrite H. vm_compute. discriminate.
Qed.

Lemma IntToDecimal_min_int64_witness :
  wf initial /\
  view (IntToDecimal initial (- 2 ^ 63)) = Done (bytes_of "-") /\
  view (IntToDecimal initial (- 2 ^ 63)) <> Done (45 :: decimal (2 ^ 63)).
Proof.
  split; [repeat split|].
  apply (IntToDecimal_min_int64 initial). repeat split.
Defined.

(** C6, beyond the array: with [width = 21] the unpadded representation
    ["7"] is shorter than [width], yet [UintToDecimalFixed] does not return
    a 21-byte view: slicing the 20-byte array up to [width] panics. *)
Theorem UintToDecimalFixed_width_21 (b : Buffers) :
  wf b ->
  view (UintToDecimal b 7) = Done (bytes_of "7") /\
  UintToDecimalFixed b 7 21 = Panic.
Proof.
  intros Hwf. split.
  - destruct (UintToDecimal_spec b 7 Hwf ltac:(lia)) as (buf' & Hrun & Hlen & Hskip).
    unfold view. rewrite Hrun. cbn [bind].
    rewrite contents_tail by (rewrite get_set_same; exact Hlen).
    rewrite get_set_same, Hskip. reflexivity.
  - apply UintToDecimalFixed_wide; [exact Hwf | lia | lia].
Qed.

Lemma UintToDecimalFixed_width_21_witness :
  wf initial /\
  view (UintToDecimal initial 7) = Done (bytes_of "7") /\
  UintToDecimalFixed initial 7 21 = Panic.
Proof.
  split; [repeat split|].
  apply (UintToDecimalFixed_width_21 initial). repeat split.
Defined.

(** [UintToDecimal] and [IntToDecimal] return for every input, and
    [UintToDecimalFixed] returns for every width the array can hold. *)
Lemma decimal_encoders_return (b : Buffers) (v w width : Z) :
  wf b -> is_uint 64 v -> is_int64 w -> width <= 20 ->
  (exists r, UintToDecimal b v = Done r) /\
  (exists r, IntToDecimal b w = Done r) /\
  (exists r, UintToDecimalFixed b v width = Done r).
Proof.
  intros Hwf Hv Hw Hwidth. unfold is_uint in Hv. unfold is_int64 in Hw.
  split; [|split].
  - destruct (UintToDecimal_spec b v Hwf Hv) as (buf' & Hrun & _). eauto.
  - destruct (Z.eq_dec w (- 2 ^ 63)) as [->|Hne].
    + rewrite (IntToDecimal_min b Hwf). eauto.
    + destruct (IntToDecimal_spec b w Hwf ltac:(lia)) as (buf' & Hrun & _). eauto.
  - pose proof (UintToDecimalFixed_fits b v width Hwf Hv Hwidth) as H.
    destruct (UintToDecimalFixed b v width) as [r|]; [eauto | discriminate].
Qed.

(** C9, beyond the array: for every uint64 value and every width larger
    than the 20-byte decimal scratch array, [UintToDecimalFixed] does not
    complete: it panics on an out-of-range slice bound. *)
Theorem UintToDecimalFixed_panics_beyond_capacity (b : Buffers) (v width : Z) :
  wf b -> is_uint 64 v -> 20 < width ->
  UintToDecimalFixed b v width = Panic.
Proof.
  intros Hwf Hv Hw. apply UintToDecimalFixed_wide; assumption.
Qed.

Lemma UintToDecimalFixed_panics_beyond_capacity_witness :
  wf initial /\ is_uint 64 0 /\ 20 < 21 /\
  UintToDecimalFixed initial 0 21 = Panic.
Proof.
  split; [repeat split|].
  split; [unfold is_uint; lia|].
  split; [lia|].
  apply (UintToDecimalFixed_panics_beyond_capacity initial 0 21);
    [repeat split | unfold is_uint; lia | lia].
Defined.

(* ------------------------------------------------------------------ *)
(** ** Hex encoder *)

Lemma hex_glyph_index (d : Z) :
  0 <= d < 16 -> index ASCIIHexDigits d = Done (hex_glyph d).
Proof.
  intros H.
  assert (d = 0 \/ d = 1 \/ d = 2 \/ d = 3 \/ d = 4 \/ d = 5 \/ d = 6 \/ d = 7 \/
          d = 8 \/ d = 9 \/ d = 10 \/ d = 11 \/ d = 12 \/ d = 13 \/ d = 14 \/
          d = 15) as C by lia.
  repeat (destruct C as [C|C]; [subst d; reflexivity|]). subst d. reflexivity.
Qed.

Lemma hex_glyph_value (d : Z) :
  0 <= d < 16 -> hex_digit_value (hex_glyph d) = Some d.
Proof.
  intros H.
  assert (d = 0 \/ d = 1 \/ d = 2 \/ d = 3 \/ d = 4 \/ d = 5 \/ d = 6 \/ d = 7 \/
          d = 8 \/ d = 9 \/ d = 10 \/ d = 11 \/ d = 12 \/ d = 13 \/ d = 14 \/
          d = 15) as C by lia.
  repeat (destruct C as [C|C]; [subst d; reflexivity|]). subst d. reflexivity.
Qed.

Lemma nibble_range (x : Z) : 0 <= Z.land x 15 < 16.
Proof.
  change 15 with (Z.ones 4). rewrite Z.land_ones by lia.
  apply Z.mod_pos_bound. reflexivity.
Qed.

(** One iteration of the loop at a digit position of the input width. *)
Lemma hex_loop_in (v size : Z) (k : nat) (cs buf : list Z) :
  0 <= Z.of_nat k <= Z.quot size 4 - 1 -> (k < length buf)%nat ->
  hex_loop v size (Z.of_nat k :: cs) buf
    = hex_loop v size cs
        (upd buf k (hex_glyph (Z.land (Z.shiftr v ((Z.quot size 4 - 1 - Z.of_nat k) * 4)) 15))).
Proof.
  intros Hk Hlen. cbn [hex_loop]. unfold UintToHexIndex.
  replace ((Z.of_nat k <? 0) || (Z.of_nat k >? Z.quot size 4 - 1))%bool with false.
  - pose proof (nibble_range (Z.shiftr v ((Z.quot size 4 - 1 - Z.of_nat k) * 4))) as Hr.
    replace (0 <=? _) with true by (symmetry; apply Z.leb_le; lia).
    rewrite hex_glyph_index by exact Hr. cbn [bind].
    rewrite store_in_range by exact Hlen. reflexivity.
  - symmetry. apply orb_false_iff. rewrite Z.gtb_ltb.
    split; apply Z.ltb_ge; lia.
Qed.

(** One iteration of the loop past the digits of the input width. *)
Lemma hex_loop_out (v size : Z) (k : nat) (cs buf : list Z) :
  Z.quot size 4 - 1 < Z.of_nat k ->
  hex_loop v size (Z.of_nat k :: cs) buf = hex_loop v size cs buf.
Proof.
  intros Hk. cbn [hex_loop]. unfold UintToHexIndex.
  replace (Z.of_nat k >? Z.quot size 4 - 1) with true.
  - rewrite orb_true_r. reflexivity.
  - symmetry. rewrite Z.gtb_ltb. apply Z.ltb_lt. lia.
Qed.

(** The value of the glyphs of the [n] low nibbles. *)
Lemma hex_value_nibbles (n : nat) (v : Z) : forall acc,
  hex_value_from acc (map hex_glyph (nibbles n v))
    = Some (acc * 16 ^ Z.of_nat n + v mod 16 ^ Z.of_nat n).
Proof.
  induction n as [|n IH]; intros acc.
  - cbn [nibbles map hex_value_from]. f_equal.
    change (16 ^ Z.of_nat 0) with 1. rewrite Z.mod_1_r. lia.
  - cbn [nibbles map hex_value_from].
    rewrite hex_glyph_value by apply nibble_range.
    rewrite IH. f_equal.
    change 15 with (Z.ones 4). rewrite Z.land_ones, Z.shiftr_div_pow2 by lia.
    rewrite Nat2Z.inj_succ, Z.pow_succ_r by lia.
    replace (2 ^ (4 * Z.of_nat n)) with (16 ^ Z.of_nat n)
      by (rewrite Z.pow_mul_r by lia; reflexivity).
    change (2 ^ 4) with 16.
    assert (0 < 16 ^ Z.of_nat n) by (apply Z.pow_pos_nonneg; lia).
    rewrite (Z.mul_comm 16 (16 ^ Z.of_nat n)).
    rewrite (Z.rem_mul_r v (16 ^ Z.of_nat n) 16) by lia.
    lia.
Qed.

Ltac closed_Z :=
  vm_compute; first [ reflexivity | intro; discriminate ].

Ltac hex_side :=
  solve [ split; closed_Z | closed_Z | cbn [length upd]; lia ].

Ltac hex_run :=
  repeat first [ rewrite hex_loop_in by hex_side
               | rewrite hex_loop_out by hex_side ].

(** Each encoder returns [UintToHexBuffer[:W/4]]; the first [W/4] bytes of
    the array are the glyphs of the nibbles of the value, most significant
    first, and the rest of the array is as it was. *)
Lemma UintToHex_spec (w : hex_width) (b : Buffers) (v : Z) :
  wf b ->
  exists buf',
    UintToHex w b v = Done (mkSlice AHex 0 (hex_len w), set b AHex buf') /\
    length buf' = 16%nat /\
    firstn (hex_len w) buf' = map hex_glyph (nibbles (hex_len w) v) /\
    skipn (hex_len w) buf' = skipn (hex_len w) (UintToHexBuffer b).
Proof.
  intros (Hh & _). destruct b as [hexbuf decbuf intbuf fbuf].
  cbn [UintToHexBuffer] in *.
  do 16 (destruct hexbuf as [|? hexbuf]; [discriminate|]).
  destruct hexbuf; [|discriminate]. clear Hh.
  destruct w; unfold UintToHex, Uint8ToHex, Uint16ToHex, Uint32ToHex, Uint64ToHex,
    hex_encode, range; cbn [UintToHexBuffer length seq map]; hex_run;
    cbn [hex_loop upd bind]; eexists; (split; [reflexivity|]);
    (split; [reflexivity|]); (split; reflexivity).
Qed.

Lemma UintToHex_view (w : hex_width) (b : Buffers) (v : Z) :
  wf b -> view (UintToHex w b v) = Done (map hex_glyph (nibbles (hex_len w) v)).
Proof.
  intros Hwf.
  destruct (UintToHex_spec w b v Hwf) as (buf' & Hrun & Hlen & Hfirst & _).
  unfold view. rewrite Hrun. cbn [bind]. unfold contents. cbn [hi lo base].
  rewrite get_set_same. cbn [skipn]. now rewrite Nat.sub_0_r, Hfirst.
Qed.

Lemma length_nibbles (n : nat) (v : Z) : length (nibbles n v) = n.
Proof. induction n; cbn [nibbles length]; auto. Qed.

(** C5: for every width [W] in 8, 16, 32, 64 and every value of that
    width, [UintWToHex] returns the slice [UintToHexBuffer[:W/4]], whose
    [W/4] bytes are uppercase hexadecimal digits denoting the value, most
    significant digit first, leading zeros kept; [Uint32ToHex(0xDEADBEEF)]
    is ["DEADBEEF"] and [Uint8ToHex(0)] is ["00"]. *)
Theorem UintToHex_fixed_width (w : hex_width) (b : Buffers) (v : Z) :
  wf b -> is_uint (hex_bits w) v ->
  (exists b' out,
     UintToHex w b v = Done (mkSlice AHex 0 (hex_len w), b') /\
     contents b' (mkSlice AHex 0 (hex_len w)) = out /\
     Z.of_nat (length out) = hex_bits w / 4 /\
     hex_value out = Some v) /\
  view (Uint32ToHex b 0xDEADBEEF) = Done (bytes_of "DEADBEEF") /\
  view (Uint8ToHex b 0) = Done (bytes_of "00").
Proof.
  intros Hwf Hv. split; [|split].
  - destruct (UintToHex_spec w b v Hwf) as (buf' & Hrun & Hlen & Hfirst & _).
    exists (set b AHex buf'), (map hex_glyph (nibbles (hex_len w) v)).
    split; [exact Hrun|]. split.
    + unfold contents. cbn [hi lo base]. rewrite get_set_same. cbn [skipn].
      now rewrite Nat.sub_0_r.
    + rewrite length_map, length_nibbles. split.
      * destruct w; reflexivity.
      * unfold hex_value. rewrite hex_value_nibbles.
        f_equal. rewrite Z.mod_small; [lia|].
        unfold is_uint in Hv. destruct w; exact Hv.
  - apply (UintToHex_view H32 b 0xDEADBEEF Hwf).
  - apply (UintToHex_view H8 b 0 Hwf).
Qed.

Lemma UintToHex_fixed_width_witness :
  wf initial /\ is_uint (hex_bits H16) 0x1A2B /\
  (exists b' out,
     UintToHex H16 initial 0x1A2B = Done (mkSlice AHex 0 (hex_len H16), b') /\
     contents b' (mkSlice AHex 0 (hex_len H16)) = out /\
     Z.of_nat (length out) = hex_bits H16 / 4 /\
     hex_value out = Some 0x1A2B) /\
  view (Uint32ToHex initial 0xDEADBEEF) = Done (bytes_of "DEADBEEF") /\
  view (Uint8ToHex initial 0) = Done (bytes_of "00").
Proof.
  split; [repeat split|].
  split; [unfold is_uint; simpl; lia|].
  apply (UintToHex_fixed_width H16 initial 0x1A2B);
    [repeat split | unfold is_uint; simpl; lia].
Defined.

(* ------------------------------------------------------------------ *)
(** ** Byte-order codec: recombining bytes *)

(** The most significant byte, shifted into place, is the top of the
    value. *)
Lemma top_byte (w k u : Z) :
  0 <= k -> w = k + 8 ->
  shl w (byte_at u k) k = bits_from w k u.
Proof.
  intros Hk Hw. unfold shl, byte_at, bits_from, wrap. subst w.
  assert (0 <= k + 8) by lia.
  Z.bitblast; Z.bitblast_core.
Qed.

(** Or-ing the next byte below the bits already assembled. *)
Lemma next_byte (w k k' u : Z) :
  0 <= k -> k' = k + 8 -> k' <= w ->
  Z.lor (bits_from w k' u) (shl w (byte_at u k) k) = bits_from w k u.
Proof.
  intros Hk Hk' Hw. unfold shl, byte_at, bits_from, wrap. subst k'.
  assert (0 <= w) by lia.
  Z.bitblast; Z.bitblast_core.
Qed.

(** The least significant byte enters unshifted. *)
Lemma last_byte (w u : Z) :
  8 <= w ->
  Z.lor (bits_from w 8 u) (byte_at u 0) = wrap w u.
Proof.
  intros Hw. unfold byte_at, bits_from, wrap.
  assert (0 <= w) by lia.
  Z.bitblast; Z.bitblast_core.
Qed.

Lemma combine16 (v : Z) :
  is_uint 16 v -> Z.lor (shl 16 (byte_at v 8) 8) (byte_at v 0) = v.
Proof.
  intros Hv.
  rewrite (top_byte 16 8) by lia.
  rewrite last_byte by lia.
  apply Z.mod_small. exact Hv.
Qed.

Lemma combine32 (v : Z) :
  is_uint 32 v ->
  Z.lor (Z.lor (Z.lor (shl 32 (byte_at v 24) 24) (shl 32 (byte_at v 16) 16))
               (shl 32 (byte_at v 8) 8))
        (byte_at v 0) = v.
Proof.
  intros Hv.
  rewrite (top_byte 32 24) by lia.
  rewrite (next_byte 32 16 24), (next_byte 32 8 16) by lia.
  rewrite last_byte by lia.
  apply Z.mod_small. exact Hv.
Qed.

Lemma combine64 (v : Z) :
  is_uint 64 v ->
  Z.lor (Z.lor (Z.lor (Z.lor (Z.lor (Z.lor (Z.lor
    (shl 64 (byte_at v 56) 56) (shl 64 (byte_at v 48) 48))
    (shl 64 (byte_at v 40) 40)) (shl 64 (byte_at v 32) 32))
    (shl 64 (byte_at v 24) 24)) (shl 64 (byte_at v 16) 16))
    (shl 64 (byte_at v 8) 8)) (byte_at v 0) = v.
Proof.
  intros Hv.
  rewrite (top_byte 64 56) by lia.
  rewrite (next_byte 64 48 56), (next_byte 64 40 48), (next_byte 64 32 40),
    (next_byte 64 24 32), (next_byte 64 16 24), (next_byte 64 8 16) by lia.
  rewrite last_byte by lia.
  apply Z.mod_small. exact Hv.
Qed.

(* ------------------------------------------------------------------ *)
(** ** Byte-order codec: encoders and decoders *)

Lemma firstn_succ_upd (l : list Z) (k : nat) (x : Z) :
  (k < length l)%nat -> firstn (S k) (upd l k x) = firstn k l ++ [x].
Proof.
  revert k. induction l as [|h t IH]; intros [|k] H; simpl in *; try lia; auto.
  f_equal. apply IH. lia.
Qed.

Lemma skipn_upd_after (l : list Z) (k m : nat) (x : Z) :
  (k < m)%nat -> skipn m (upd l k x) = skipn m l.
Proof.
  revert k m. induction l as [|h t IH]; intros [|k] [|m] H; simpl; try lia; auto.
  apply IH. lia.
Qed.

Lemma store_seq_spec (xs : list Z) : forall (k : nat) (l : list Z),
  (k + length xs <= length l)%nat ->
  store_seq l (Z.of_nat k) xs = Done (blit l k xs).
Proof.
  induction xs as [|x xs IH]; intros k l H.
  - cbn [store_seq]. unfold blit. cbn [app length].
    now rewrite Nat.add_0_r, firstn_skipn.
  - cbn [length] in H. cbn [store_seq].
    rewrite store_in_range by lia. cbn [bind].
    replace (Z.of_nat k + 1) with (Z.of_nat (S k)) by lia.
    rewrite IH by (rewrite length_upd; lia).
    unfold blit. rewrite firstn_succ_upd by lia.
    rewrite skipn_upd_after by lia.
    rewrite <- app_assoc. cbn [app length]. f_equal. f_equal. f_equal. f_equal. f_equal. lia.
Qed.

Lemma index_at (l : list Z) (i : Z) (n : nat) :
  Z.of_nat n = i -> (n < length l)%nat -> index l i = Done (nth n l 0).
Proof.
  intros <- H. rewrite index_in_range by lia. now rewrite Nat2Z.id.
Qed.

Ltac run_index :=
  repeat match goal with
         | |- context [index ?l ?i] =>
           let n := eval vm_compute in (Z.to_nat i) in
           rewrite (index_at l i n) by (first [reflexivity | cbn [length]; lia]);
           cbn [bind nth]
         end.

Ltac size_guard :=
  match goal with
  | |- context [Z.of_nat ?n <? ?k] =>
    first [ replace (Z.of_nat n <? k) with false
              by (symmetry; apply Z.ltb_ge; cbn [length nbytes] in *; lia)
          | replace (Z.of_nat n <? k) with true
              by (symmetry; apply Z.ltb_lt; cbn [length nbytes] in *; lia) ]
  end.

Ltac unfold_codec :=
  unfold encode, decode,
    Uint16ToBytes, Uint32ToBytes, Uint64ToBytes,
    Uint16ToBytesLE, Uint32ToBytesLE, Uint64ToBytesLE,
    BytesToUint16, BytesToUint32, BytesToUint64,
    BytesToUint16LE, BytesToUint32LE, BytesToUint64LE,
    BigEndian_PutUint16, BigEndian_PutUint32, BigEndian_PutUint64,
    LittleEndian_PutUint16, LittleEndian_PutUint32, LittleEndian_PutUint64.

(** An encoder given too short a buffer reports the error and leaves the
    buffer as it is. *)
Lemma encode_short (w : width) (o : order) (v : Z) (buffer : list Z) :
  (length buffer < nbytes w)%nat ->
  encode w o v buffer = Done (ErrorCodeBuffersInvalidBufferSize, buffer).
Proof.
  intros H. destruct w, o; unfold_codec; size_guard; reflexivity.
Qed.

(** An encoder given a long enough buffer writes the bytes of the value
    over the first [W/8] positions and nothing else. *)
Lemma encode_long (w : width) (o : order) (v : Z) (buffer : list Z) :
  (nbytes w <= length buffer)%nat ->
  encode w o v buffer
    = Done (ErrorCodeNil, wire w o v ++ skipn (nbytes w) buffer).
Proof.
  intros H.
  destruct w, o; unfold_codec; size_guard; cbn [nbytes] in H;
    rewrite index_in_range by lia; cbn [bind];
    change 0 with (Z.of_nat 0);
    rewrite store_seq_spec by (cbn [length]; lia);
    reflexivity.
Qed.

(** A decoder given too short a buffer reports the error and the zero
    value. *)
Lemma decode_short (w : width) (o : order) (data : list Z) :
  (length data < nbytes w)%nat ->
  decode w o data = Done (0, ErrorCodeBuffersInvalidBufferSize).
Proof.
  intros H. destruct w, o; unfold_codec; size_guard; reflexivity.
Qed.

(** A decoder given a long enough buffer returns a value and no error. *)
Lemma decode_long (w : width) (o : order) (data : list Z) :
  (nbytes w <= length data)%nat ->
  exists x, decode w o data = Done (x, ErrorCodeNil).
Proof.
  intros H.
  destruct w, o; cbn [nbytes] in H;
    repeat (destruct data as [|? data]; [cbn [length] in H; lia|]);
    unfold_codec; size_guard; run_index; eexists; reflexivity.
Qed.

Lemma length_wire (w : width) (o : order) (v : Z) : length (wire w o v) = nbytes w.
Proof. destruct w, o; reflexivity. Qed.

(** Decoding the bytes of a [W]-bit value, whatever follows them, gives
    the value back. *)
Lemma decode_wire (w : width) (o : order) (v : Z) (rest : list Z) :
  is_uint (bits w) v ->
  decode w o (wire w o v ++ rest) = Done (v, ErrorCodeNil).
Proof.
  intros Hv.
  destruct w, o; cbn [bits] in Hv; cbn [wire nbytes big_endian rev app];
    unfold_codec; size_guard; run_index; do 2 f_equal;
    first [ exact (combine16 v Hv) | exact (combine32 v Hv) | exact (combine64 v Hv) ].
Qed.

(** C3: for every width 16, 32, 64, both byte orders, every value [v] of
    the width and every buffer of at least [W/8] bytes, the encoder succeeds
    and the matching decoder applied to the buffer it leaves returns [v] with
    no error; [BytesToUint32([0,0,1,0])] is 256 and
    [Uint16ToBytesLE(0x1234, buf)] writes [buf[0] = 0x34], [buf[1] = 0x12]. *)
Theorem codec_roundtrip (w : width) (o : order) (v : Z) (buffer : list Z) :
  is_uint (bits w) v -> (nbytes w <= length buffer)%nat ->
  (exists buffer',
     encode w o v buffer = Done (ErrorCodeNil, buffer') /\
     decode w o buffer' = Done (v, ErrorCodeNil)) /\
  BytesToUint32 [0x00; 0x00; 0x01; 0x00] = Done (256, ErrorCodeNil) /\
  (exists buffer',
     Uint16ToBytesLE 0x1234 buffer = Done (ErrorCodeNil, buffer') /\
     nth 0 buffer' 0 = 0x34 /\ nth 1 buffer' 0 = 0x12).
Proof.
  intros Hv Hlen. split; [|split].
  - exists (wire w o v ++ skipn (nbytes w) buffer). split.
    + apply encode_long. exact Hlen.
    + apply decode_wire. exact Hv.
  - reflexivity.
  - exists (wire W16 LittleEndian 0x1234 ++ skipn (nbytes W16) buffer). split.
    + apply (encode_long W16 LittleEndian). destruct w; cbn [nbytes] in *; lia.
    + split; reflexivity.
Qed.

Lemma codec_roundtrip_witness :
  is_uint (bits W32) 0xCAFEF00D /\
  (nbytes W32 <= length [1; 2; 3; 4; 5])%nat /\
  (exists buffer',
     encode W32 LittleEndian 0xCAFEF00D [1; 2; 3; 4; 5] = Done (ErrorCodeNil, buffer') /\
     decode W32 LittleEndian buffer' = Done (0xCAFEF00D, ErrorCodeNil)) /\
  BytesToUint32 [0x00; 0x00; 0x01; 0x00] = Done (256, ErrorCodeNil) /\
  (exists buffer',
     Uint16ToBytesLE 0x1234 [1; 2; 3; 4; 5] = Done (ErrorCodeNil, buffer') /\
     nth 0 buffer' 0 = 0x34 /\ nth 1 buffer' 0 = 0x12).
Proof.
  split; [unfold is_uint; simpl; lia|].
  split; [simpl; lia|].
  apply (codec_roundtrip W32 LittleEndian 0xCAFEF00D [1; 2; 3; 4; 5]);
    [unfold is_uint; simpl; lia | simpl; lia].
Defined.

Lemma nbytes_bits (w : width) : Z.of_nat (nbytes w) = bits w / 8.
Proof. destruct w; reflexivity. Qed.

Lemma InvalidBufferSize_not_Nil : ErrorCodeNil <> ErrorCodeBuffersInvalidBufferSize.
Proof. discriminate. Qed.

(** C4: for every width 16, 32, 64 and both byte orders, the encoder and
    the decoder return [ErrorCodeBuffersInvalidBufferSize] exactly when the
    buffer is shorter than [W/8] bytes.  On that error the encoder leaves
    the buffer as it was and the decoder returns the zero value.  Otherwise
    both return the no-error sentinel, and the encoder has written the
    [W/8] bytes of the value at the front of the buffer and left every byte
    beyond them, and the length, untouched. *)
Theorem codec_buffer_size (w : width) (o : order) (v : Z) (buffer : list Z) :
  Z.of_nat (nbytes w) = bits w / 8 /\
  (exists e buffer',
     encode w o v buffer = Done (e, buffer') /\
     (e = ErrorCodeBuffersInvalidBufferSize <-> (length buffer < nbytes w)%nat) /\
     (e = ErrorCodeBuffersInvalidBufferSize -> buffer' = buffer) /\
     (e <> ErrorCodeBuffersInvalidBufferSize ->
        e = ErrorCodeNil /\
        length buffer' = length buffer /\
        firstn (nbytes w) buffer' = wire w o v /\
        skipn (nbytes w) buffer' = skipn (nbytes w) buffer)) /\
  (exists x e,
     decode w o buffer = Done (x, e) /\
     (e = ErrorCodeBuffersInvalidBufferSize <-> (length buffer < nbytes w)%nat) /\
     (e = ErrorCodeBuffersInvalidBufferSize -> x = 0) /\
     (e <> ErrorCodeBuffersInvalidBufferSize -> e = ErrorCodeNil)).
Proof.
  split; [apply nbytes_bits|].
  pose proof InvalidBufferSize_not_Nil as Hne.
  destruct (Nat.lt_ge_cases (length buffer) (nbytes w)) as [Hs|Hl].
  - split.
    + exists ErrorCodeBuffersInvalidBufferSize, buffer.
      split; [apply encode_short; exact Hs|].
      split; [tauto|]. split; [tauto|]. intros H. congruence.
    + exists 0, ErrorCodeBuffersInvalidBufferSize.
      split; [apply decode_short; exact Hs|].
      split; [tauto|]. split; [tauto|]. intros H. congruence.
  - split.
    + exists ErrorCodeNil, (wire w o v ++ skipn (nbytes w) buffer).
      split; [apply encode_long; exact Hl|].
      split; [split; intros H; [congruence | lia]|].
      split; [intros H; congruence|]. intros _.
      split; [reflexivity|].
      pose proof (length_wire w o v) as Hw.
      split; [|split].
      * rewrite length_app, length_skipn, Hw. lia.
      * rewrite firstn_app, Hw, Nat.sub_diag. cbn [firstn].
        rewrite app_nil_r. apply firstn_all2. lia.
      * rewrite skipn_app, Hw, Nat.sub_diag. cbn [skipn].
        rewrite skipn_all2 by lia. reflexivity.
    + destruct (decode_long w o buffer Hl) as (x & Hx).
      exists x, ErrorCodeNil. split; [exact Hx|].
      split; [split; intros H; [congruence | lia]|].
      split; [intros H; congruence | reflexivity].
Qed.

(* ------------------------------------------------------------------ *)
(** ** Float decimal encoder *)

Lemma get_set_other (b : Buffers) (a a' : array) (l : list Z) :
  a <> a' -> get (set b a l) a' = get b a'.
Proof. destruct a, a'; intros H; try reflexivity; congruence. Qed.

(** [copy] never changes the length of an array. *)
Lemma copy_length (b : Buffers) (dst src : slice) (a : array) :
  (lo dst <= hi dst <= length (get b (base dst)))%nat ->
  length (get (copy b dst src) a) = length (get b a).
Proof.
  intros H. unfold copy.
  destruct (array_eq_dec (base dst) a) as [<-|Hne].
  - rewrite get_set_same. apply length_blit.
    rewrite length_firstn. lia.
  - now rewrite get_set_other.
Qed.

(** [IntToDecimal] returns for every [int64]: a slice
    [IntToDecimalBuffer[20 - n:]] of [1 <= n <= 20] bytes, with only that
    array written. *)
Lemma IntToDecimal_total (b : Buffers) (v : Z) :
  wf b -> is_int64 v ->
  exists (n : nat) (buf' : list Z),
    (0 < n <= 20)%nat /\
    IntToDecimal b v = Done (mkSlice AInt (20 - n) 20, set b AInt buf') /\
    length buf' = 20%nat.
Proof.
  intros Hwf Hv. unfold is_int64 in Hv.
  destruct (Z.eq_dec v (- 2 ^ 63)) as [->|Hne].
  - exists 1%nat, (upd (IntToDecimalBuffer b) 19 45).
    split; [lia|]. split; [apply IntToDecimal_min; exact Hwf|].
    rewrite length_upd. apply Hwf.
  - destruct (IntToDecimal_spec b v Hwf ltac:(lia)) as (buf' & Hrun & Hlen & Hskip).
    cbv zeta in Hrun.
    set (repr := if v <? 0 then 45 :: decimal (- v) else decimal v) in *.
    exists (length repr), buf'. split; [|split; assumption].
    subst repr. destruct (v <? 0) eqn:E.
    + apply Z.ltb_lt in E.
      pose proof (decimal_length (- v) 19 ltac:(lia) ltac:(lia)).
      cbn [length]. lia.
    + apply Z.ltb_ge in E.
      pose proof (decimal_length v 19 ltac:(lia) ltac:(lia)).
      pose proof (decimal_nonempty v E).
      destruct (decimal v); [congruence | cbn [length] in *; lia].
Qed.

Lemma swrap_range (x : Z) : is_int64 (swrap 64 x).
Proof.
  unfold is_int64, swrap.
  pose proof (Z.mod_pos_bound (x + 2 ^ (64 - 1)) (2 ^ 64) ltac:(lia)).
  change (2 ^ (64 - 1)) with (2 ^ 63) in *. lia.
Qed.

Lemma float_to_int64_range (impl : float64 -> Z) (x : float64) :
  is_int64 (float_to_int impl 64 x).
Proof.
  unfold float_to_int. destruct (f64_trunc x) as [z|]; [|apply swrap_range].
  destruct ((- 2 ^ (64 - 1) <=? z) && (z <? 2 ^ (64 - 1)))%bool eqn:E;
    [|apply swrap_range].
  apply andb_true_iff in E. destruct E as [E1 E2].
  apply Z.leb_le in E1. apply Z.ltb_lt in E2.
  change (2 ^ (64 - 1)) with (2 ^ 63) in *. unfold is_int64. lia.
Qed.

(** The fractional digits are written within the array whenever they were
    checked to fit. *)
Lemma frac_loop_ok (impl : float64 -> Z) (k : nat) :
  forall (frac : float64) (i : nat) (buf : list Z),
  (i + k <= length buf)%nat ->
  exists buf',
    frac_loop impl k frac (Z.of_nat i) buf = Done (Z.of_nat (i + k), buf') /\
    length buf' = length buf.
Proof.
  induction k as [|k IH]; intros frac i buf H.
  - exists buf. cbn [frac_loop]. now rewrite Nat.add_0_r.
  - cbn [frac_loop]. rewrite store_in_range by lia. cbn [bind].
    replace (Z.of_nat i + 1) with (Z.of_nat (S i)) by lia.
    match goal with
    | |- context [frac_loop impl k ?f (Z.of_nat (S i)) ?l] =>
      destruct (IH f (S i) l) as (buf' & Hrun & Hlen);
        [rewrite length_upd; lia|]
    end.
    exists buf'. rewrite Hrun. rewrite length_upd in Hlen.
    split; [do 3 f_equal; lia | exact Hlen].
Qed.

(** The three ways a call goes, by the length [n] of the integer part as
    [IntToDecimal] wrote it: a panic at the separator when [n] reaches the
    length of the array, the precision error when the digits do not fit
    behind the separator, a returned slice otherwise. *)
Lemma Float64ToDecimal_cases (impl : float64 -> Z) (b : Buffers)
      (x : float64) (precision : Z) (n : nat) (buf' : list Z) :
  wf b -> (0 < n <= 20)%nat -> length buf' = 20%nat ->
  IntToDecimal b (float_to_int impl 64 x)
    = Done (mkSlice AInt (20 - n) 20, set b AInt buf') ->
  ((8 <= n)%nat -> Float64ToDecimal impl b x precision = Panic) /\
  ((n < 8)%nat -> 8 - (Z.of_nat n + 1) < precision ->
     exists b',
       Float64ToDecimal impl b x precision
         = Done (None, ErrorCodeBuffersTooMuchPrecisionDigitsForFloat64, b')) /\
  ((n < 8)%nat -> precision <= 8 - (Z.of_nat n + 1) ->
     exists s b',
       Float64ToDecimal impl b x precision = Done (Some s, ErrorCodeNil, b') /\
       len s = Z.of_nat n + 1 + Z.max 0 precision).
Proof.
  intros Hwf Hn Hlen Hrun.
  assert (Hf : length (Float64ToDecimalBuffer b) = 8%nat) by apply Hwf.
  unfold Float64ToDecimal. rewrite Hrun. cbn [bind].
  rewrite slice_from_ok
    by (rewrite get_set_other by discriminate; cbn [get]; lia).
  cbn [bind]. rewrite get_set_other by discriminate. cbn [get].
  change (Z.to_nat 0) with 0%nat. rewrite Hf.
  set (b2 := copy (set b AInt buf') (mkSlice AFloat 0 8) (mkSlice AInt (20 - n) 20)).
  assert (Hf2 : length (Float64ToDecimalBuffer b2) = 8%nat).
  { change (Float64ToDecimalBuffer b2) with (get b2 AFloat).
    subst b2. rewrite copy_length.
    - rewrite get_set_other by discriminate. exact Hf.
    - cbn [lo hi base]. rewrite get_set_other by discriminate. cbn [get]. lia. }
  assert (Hl : len (mkSlice AInt (20 - n) 20) = Z.of_nat n)
    by (unfold len; cbn [hi lo]; lia).
  rewrite !Hl, !Z.add_0_l.
  split; [|split].
  - intros H8. rewrite store_out_of_range by lia. reflexivity.
  - intros H8 Hp. rewrite store_in_range by lia. cbn [bind].
    cbn [set Float64ToDecimalBuffer]. rewrite length_upd, Hf2.
    replace (Z.of_nat 8 - (Z.of_nat n + 1) <? precision) with true
      by (symmetry; apply Z.ltb_lt; lia).
    eexists. reflexivity.
  - intros H8 Hp. rewrite store_in_range by lia. cbn [bind].
    cbn [set Float64ToDecimalBuffer]. rewrite length_upd, Hf2.
    replace (Z.of_nat 8 - (Z.of_nat n + 1) <? precision) with false
      by (symmetry; apply Z.ltb_ge; lia).
    replace (Z.of_nat n + 1) with (Z.of_nat (S n)) by lia.
    match goal with
    | |- context [frac_loop impl ?k ?f (Z.of_nat (S n)) ?l] =>
      destruct (frac_loop_ok impl k f (S n) l) as (buf3 & Hloop & Hlen3);
        [rewrite length_upd; lia|]
    end.
    rewrite Hloop. cbn [bind]. rewrite length_upd, Hf2 in Hlen3.
    rewrite slice_to_ok by (cbn [get Float64ToDecimalBuffer]; lia).
    cbn [bind]. do 2 eexists. split; [reflexivity|].
    unfold len. cbn [hi lo]. lia.
Qed.

(** When the integer part fills the array, the separator is stored at an
    index beyond it, whatever the precision: the slice
    [Float64ToDecimalBuffer[0:]] is taken and the integer part copied, and
    the next statement, the store of ['.'], is out of range. *)
Lemma Float64ToDecimal_long_integer_part (impl : float64 -> Z) (b : Buffers)
      (x : float64) (precision : Z) (intBuf : slice) (b1 : Buffers) :
  wf b ->
  IntToDecimal b (float_to_int impl 64 x) = Done (intBuf, b1) ->
  Z.of_nat (length (Float64ToDecimalBuffer b)) <= len intBuf ->
  exists dst,
    slice_from b1 AFloat 0 = Done dst /\
    Z.of_nat (length (Float64ToDecimalBuffer (copy b1 dst intBuf))) <= 0 + len intBuf /\
    store (Float64ToDecimalBuffer (copy b1 dst intBuf)) (0 + len intBuf) 46 = Panic /\
    Float64ToDecimal impl b x precision = Panic.
Proof.
  intros Hwf Hrun Hlong.
  destruct (IntToDecimal_total b _ Hwf (float_to_int64_range impl x))
    as (n & buf' & Hn & Hrun' & Hlen).
  rewrite Hrun' in Hrun.
  assert (Hs : intBuf = mkSlice AInt (20 - n) 20) by congruence.
  assert (Hb : b1 = set b AInt buf') by congruence.
  subst intBuf b1. clear Hrun.
  assert (Hf : length (Float64ToDecimalBuffer b) = 8%nat) by apply Hwf.
  rewrite Hf in Hlong.
  change (len (mkSlice AInt (20 - n) 20)) with (Z.of_nat (20 - (20 - n))) in *.
  exists (mkSlice AFloat 0 8).
  assert (Hdst : slice_from (set b AInt buf') AFloat 0 = Done (mkSlice AFloat 0 8)).
  { rewrite slice_from_ok
      by (rewrite get_set_other by discriminate; cbn [get]; lia).
    rewrite get_set_other by discriminate. cbn [get]. now rewrite Hf. }
  assert (Hf2 : length (Float64ToDecimalBuffer
                          (copy (set b AInt buf') (mkSlice AFloat 0 8)
                                (mkSlice AInt (20 - n) 20))) = 8%nat).
  { change (Float64ToDecimalBuffer ?c) with (get c AFloat).
    rewrite copy_length.
    - rewrite get_set_other by discriminate. exact Hf.
    - cbn [lo hi base]. rewrite get_set_other by discriminate. cbn [get]. lia. }
  split; [exact Hdst|]. split; [rewrite Hf2; lia|].
  split; [apply store_out_of_range; rewrite Hf2; lia|].
  apply (Float64ToDecimal_cases impl b x precision n buf' Hwf Hn Hlen Hrun').
  lia.
Qed.

(** When the integer part leaves room for the separator, the precision
    check decides: the error exactly when the digits asked for exceed the
    bytes left behind the separator. *)
Lemma Float64ToDecimal_short_integer_part (impl : float64 -> Z) (b : Buffers)
      (x : float64) (precision : Z) (intBuf : slice) (b1 : Buffers) :
  wf b ->
  IntToDecimal b (float_to_int impl 64 x) = Done (intBuf, b1) ->
  len intBuf < Z.of_nat (length (Float64ToDecimalBuffer b)) ->
  exists s e b',
    Float64ToDecimal impl b x precision = Done (s, e, b') /\
    (Z.of_nat (length (Float64ToDecimalBuffer b)) - (len intBuf + 1) < precision ->
       e = ErrorCodeBuffersTooMuchPrecisionDigitsForFloat64 /\ s = None) /\
    (precision <= Z.of_nat (length (Float64ToDecimalBuffer b)) - (len intBuf + 1) ->
       e = ErrorCodeNil /\ s <> None).
Proof.
  intros Hwf Hrun Hshort.
  destruct (IntToDecimal_total b _ Hwf (float_to_int64_range impl x))
    as (n & buf' & Hn & Hrun' & Hlen).
  rewrite Hrun' in Hrun.
  assert (Hs : intBuf = mkSlice AInt (20 - n) 20) by congruence.
  subst intBuf. clear Hrun.
  assert (Hf : length (Float64ToDecimalBuffer b) = 8%nat) by apply Hwf.
  rewrite Hf in *.
  change (len (mkSlice AInt (20 - n) 20)) with (Z.of_nat (20 - (20 - n))) in *.
  destruct (Float64ToDecimal_cases impl b x precision n buf' Hwf Hn Hlen Hrun')
    as (_ & Herr & Hok).
  destruct (Z_lt_le_dec (8 - (Z.of_nat n + 1)) precision) as [Hp|Hp].
  - destruct Herr as (b' & Hr); [lia | lia |].
    exists None, ErrorCodeBuffersTooMuchPrecisionDigitsForFloat64, b'.
    split; [exact Hr|]. split; [auto | lia].
  - destruct Hok as (s & b' & Hr & _); [lia | lia |].
    exists (Some s), ErrorCodeNil, b'.
    split; [exact Hr|]. split; [lia | split; [reflexivity | discriminate]].
Qed.

Lemma IntToDecimal_12345678 (b : Buffers) :
  wf b ->
  exists buf',
    IntToDecimal b 12345678 = Done (mkSlice AInt 12 20, set b AInt buf') /\
    length buf' = 20%nat /\
    skipn 12 buf' = bytes_of "12345678".
Proof.
  intros Hwf.
  destruct (IntToDecimal_spec b 12345678 Hwf ltac:(lia)) as (buf' & Hrun & Hlen & Hskip).
  exists buf'. repeat split; assumption.
Qed.

Lemma float_to_int_12345678 (impl : float64 -> Z) :
  float_to_int impl 64 (f64_of_int 12345678) = 12345678.
Proof. reflexivity. Qed.

(** C10: [Float64ToDecimal] is not total.  Whenever the integer part, as
    [IntToDecimal] writes it, is at least as long as the 8-byte float
    array, the store of the separator ['.'] is at an index at or beyond
    the length of the array and the call panics, for every precision: the
    integer part and the separator are written before the only capacity
    check.  [12345678.0] is such a value. *)
Theorem Float64ToDecimal_not_total (impl : float64 -> Z) (b : Buffers) (precision : Z) :
  wf b ->
  (forall x intBuf b1,
     IntToDecimal b (float_to_int impl 64 x) = Done (intBuf, b1) ->
     Z.of_nat (length (Float64ToDecimalBuffer b)) <= len intBuf ->
     exists dst,
       slice_from b1 AFloat 0 = Done dst /\
       Z.of_nat (length (Float64ToDecimalBuffer (copy b1 dst intBuf))) <= 0 + len intBuf /\
       store (Float64ToDecimalBuffer (copy b1 dst intBuf)) (0 + len intBuf) 46 = Panic /\
       Float64ToDecimal impl b x precision = Panic) /\
  (exists intBuf b1,
     IntToDecimal b (float_to_int impl 64 (f64_of_int 12345678)) = Done (intBuf, b1) /\
     contents b1 intBuf = bytes_of "12345678" /\
     Z.of_nat (length (Float64ToDecimalBuffer b)) <= len intBuf) /\
  Float64ToDecimal impl b (f64_of_int 12345678) precision = Panic.
Proof.
  intros Hwf.
  assert (Hf : length (Float64ToDecimalBuffer b) = 8%nat) by apply Hwf.
  destruct (IntToDecimal_12345678 b Hwf) as (buf' & Hrun & Hlen & Hskip).
  assert (Hlong : Z.of_nat (length (Float64ToDecimalBuffer b))
                  <= len (mkSlice AInt 12 20))
    by (rewrite Hf; unfold len; cbn [hi lo]; lia).
  split; [|split].
  - intros x intBuf b1 Hx Hxlong.
    exact (Float64ToDecimal_long_integer_part impl b x precision intBuf b1 Hwf Hx Hxlong).
  - exists (mkSlice AInt 12 20), (set b AInt buf').
    rewrite float_to_int_12345678. split; [exact Hrun|]. split; [|exact Hlong].
    rewrite contents_tail by (rewrite get_set_same; exact Hlen).
    rewrite get_set_same. exact Hskip.
  - destruct (Float64ToDecimal_long_integer_part impl b (f64_of_int 12345678) precision
               (mkSlice AInt 12 20) (set b AInt buf') Hwf) as (dst & _ & _ & _ & H).
    + rewrite float_to_int_12345678. exact Hrun.
    + exact Hlong.
    + exact H.
Qed.

Lemma Float64ToDecimal_not_total_witness :
  wf initial /\
  (forall x intBuf b1,
     IntToDecimal initial (float_to_int (fun _ => 0) 64 x) = Done (intBuf, b1) ->
     Z.of_nat (length (Float64ToDecimalBuffer initial)) <= len intBuf ->
     exists dst,
       slice_from b1 AFloat 0 = Done dst /\
       Z.of_nat (length (Float64ToDecimalBuffer (copy b1 dst intBuf))) <= 0 + len intBuf /\
       store (Float64ToDecimalBuffer (copy b1 dst intBuf)) (0 + len intBuf) 46 = Panic /\
       Float64ToDecimal (fun _ => 0) initial x 3 = Panic) /\
  (exists intBuf b1,
     IntToDecimal initial (float_to_int (fun _ => 0) 64 (f64_of_int 12345678))
       = Done (intBuf, b1) /\
     contents b1 intBuf = bytes_of "12345678" /\
     Z.of_nat (length (Float64ToDecimalBuffer initial)) <= len intBuf) /\
  Float64ToDecimal (fun _ => 0) initial (f64_of_int 12345678) 3 = Panic.
Proof.
  split; [repeat split|].
  apply (Float64ToDecimal_not_total (fun _ => 0) initial 3). repeat split.
Defined.

(** C8, where the integer part fills the array: for [12345678.0] no
    capacity remains behind the integer part and the separator, so the
    precision 1 exceeds it; the call does not return the precision error,
    it panics at the separator before the check is reached. *)
Theorem Float64ToDecimal_precision_check_late (impl : float64 -> Z) (b : Buffers) :
  wf b ->
  view (IntToDecimal b (float_to_int impl 64 (f64_of_int 12345678)))
    = Done (bytes_of "12345678") /\
  Z.of_nat (length (Float64ToDecimalBuffer b))
    - (Z.of_nat (length (bytes_of "12345678")) + 1) < 1 /\
  Float64ToDecimal impl b (f64_of_int 12345678) 1 = Panic.
Proof.
  intros Hwf.
  assert (Hf : length (Float64ToDecimalBuffer b) = 8%nat) by apply Hwf.
  destruct (IntToDecimal_12345678 b Hwf) as (buf' & Hrun & Hlen & Hskip).
  rewrite float_to_int_12345678. split; [|split].
  - unfold view. rewrite Hrun. cbn [bind].
    rewrite contents_tail by (rewrite get_set_same; exact Hlen).
    rewrite get_set_same, Hskip. reflexivity.
  - rewrite Hf. cbn [bytes_of list_ascii_of_string map length]. lia.
  - destruct (Float64ToDecimal_long_integer_part impl b (f64_of_int 12345678) 1
               (mkSlice AInt 12 20) (set b AInt buf') Hwf) as (dst & _ & _ & _ & H).
    + rewrite float_to_int_12345678. exact Hrun.
    + rewrite Hf. unfold len. cbn [hi lo]. lia.
    + exact H.
Qed.

Lemma Float64ToDecimal_precision_check_late_witness :
  wf initial /\
  view (IntToDecimal initial (float_to_int (fun _ => 0) 64 (f64_of_int 12345678)))
    = Done (bytes_of "12345678") /\
  Z.of_nat (length (Float64ToDecimalBuffer initial))
    - (Z.of_nat (length (bytes_of "12345678")) + 1) < 1 /\
  Float64ToDecimal (fun _ => 0) initial (f64_of_int 12345678) 1 = Panic.
Proof.
  split; [repeat split|].
  apply (Float64ToDecimal_precision_check_late (fun _ => 0) initial). repeat split.
Defined.

(** C2: [Float64ToDecimal(1.5, 2)] is ["1.50"] with no error.  For
    [Float64ToDecimal(-2.25, 1)] the fractional part keeps the sign of the
    value: it is [-0.25], the digit computed from it is [-2], and the byte
    stored is ['0' - 2], the glyph ['.']; the view is ["-2.."] and not
    ["-2.2"]. *)
Theorem Float64ToDecimal_vectors (impl : float64 -> Z) (b : Buffers) :
  wf b ->
  float_view (Float64ToDecimal impl b (f64_dyadic 3 (-1)) 2)
    = Done (Some (bytes_of "1.50"), ErrorCodeNil) /\
  float_view (Float64ToDecimal impl b (f64_dyadic (-9) (-2)) 1)
    = Done (Some (bytes_of "-2.."), ErrorCodeNil) /\
  float_view (Float64ToDecimal impl b (f64_dyadic (-9) (-2)) 1)
    <> Done (Some (bytes_of "-2.2"), ErrorCodeNil).
Proof.
  intros (_ & _ & Hi & Hf).
  destruct b as [hexbuf decbuf intbuf fbuf].
  cbn [IntToDecimalBuffer Float64ToDecimalBuffer] in *.
  unfold IntToDecimalBuffer_len in Hi. unfold Float64ToDecimalBuffer_len in Hf.
  do 20 (destruct intbuf as [|? intbuf]; [discriminate|]).
  destruct intbuf; [|discriminate].
  do 8 (destruct fbuf as [|? fbuf]; [discriminate|]).
  destruct fbuf; [|discriminate].
  split; [vm_compute; reflexivity|].
  split; [vm_compute; reflexivity|].
  vm_compute. discriminate.
Qed.

Lemma Float64ToDecimal_vectors_witness :
  wf initial /\
  float_view (Float64ToDecimal (fun _ => 0) initial (f64_dyadic 3 (-1)) 2)
    = Done (Some (bytes_of "1.50"), ErrorCodeNil) /\
  float_view (Float64ToDecimal (fun _ => 0) initial (f64_dyadic (-9) (-2)) 1)
    = Done (Some (bytes_of "-2.."), ErrorCodeNil) /\
  float_view (Float64ToDecimal (fun _ => 0) initial (f64_dyadic (-9) (-2)) 1)
    <> Done (Some (bytes_of "-2.2"), ErrorCodeNil).
Proof.
  split; [repeat split|].
  apply (Float64ToDecimal_vectors (fun _ => 0) initial). repeat split.
Defined.

(* ------------------------------------------------------------------ *)
(** ** The arrays keep their lengths *)

(** Every call of the decimal and hex encoders that returns leaves the
    arrays with the lengths they were declared with. *)
Lemma encoders_preserve_wf (b b' : Buffers) (s : slice) :
  wf b ->
  (forall v, 0 <= v < 2 ^ 64 -> UintToDecimal b v = Done (s, b') -> wf b') /\
  (forall v, is_int64 v -> IntToDecimal b v = Done (s, b') -> wf b') /\
  (forall w v, UintToHex w b v = Done (s, b') -> wf b').
Proof.
  intros Hwf. split; [|split].
  - intros v Hv Hrun.
    destruct (UintToDecimal_spec b v Hwf Hv) as (buf' & Hrun' & Hlen & _).
    rewrite Hrun' in Hrun.
    assert (b' = set b ADec buf') as -> by congruence.
    apply wf_set; [exact Hwf|]. cbn [get]. rewrite Hlen. symmetry. apply Hwf.
  - intros v Hv Hrun.
    destruct (IntToDecimal_total b v Hwf Hv) as (n & buf' & _ & Hrun' & Hlen).
    rewrite Hrun' in Hrun.
    assert (b' = set b AInt buf') as -> by congruence.
    apply wf_set; [exact Hwf|]. cbn [get]. rewrite Hlen. symmetry. apply Hwf.
  - intros w v Hrun.
    destruct (UintToHex_spec w b v Hwf) as (buf' & Hrun' & Hlen & _).
    rewrite Hrun' in Hrun.
    assert (b' = set b AHex buf') as -> by congruence.
    apply wf_set; [exact Hwf|]. cbn [get]. rewrite Hlen. symmetry. apply Hwf.
Qed.


(* ================================================================== *)
(** * Further properties of the encoders *)

(* ------------------------------------------------------------------ *)
(** ** Hex encoder: positions, aliasing, composition *)

(** X1: [UintToHexIndex] returns the sentinel [-1] exactly for the positions
    outside [0 .. size/4 - 1], and a nibble value [0 .. 15] for the
    others: the sentinel never collides with a digit. *)
Theorem UintToHexIndex_sentinel (value size pos : Z) :
  (UintToHexIndex value size pos = -1 <-> pos < 0 \/ pos > Z.quot size 4 - 1) /\
  (UintToHexIndex value size pos <> -1 -> 0 <= UintToHexIndex value size pos <= 15).
Proof.
  unfold UintToHexIndex.
  pose proof (nibble_range (Z.shiftr value ((Z.quot size 4 - 1 - pos) * 4))) as Hr.
  destruct ((pos <? 0) || (pos >? Z.quot size 4 - 1))%bool eqn:E.
  - apply orb_true_iff in E. rewrite Z.gtb_ltb in E.
    split; [|congruence]. split; [intros _|reflexivity].
    destruct E as [E|E]; apply Z.ltb_lt in E; lia.
  - apply orb_false_iff in E. rewrite Z.gtb_ltb in E. destruct E as [E1 E2].
    apply Z.ltb_ge in E1. apply Z.ltb_ge in E2.
    split; [|lia]. split; lia.
Qed.

Lemma firstn_skipn_swap (l : list Z) (n m : nat) :
  firstn (m - n) (skipn n l) = skipn n (firstn m l).
Proof.
  revert n m. induction l as [|h t IH]; intros n m.
  - now rewrite skipn_nil, !firstn_nil, skipn_nil.
  - destruct n as [|n].
    + now rewrite Nat.sub_0_r.
    + destruct m as [|m]; [reflexivity|].
      cbn [skipn firstn Nat.sub]. apply IH.
Qed.

(** X3: The hex encoders write the first [W/4] bytes of [UintToHexBuffer] and
    nothing else: the rest of that array and the three other arrays are
    as before the call. *)
Theorem UintToHex_frame (w : hex_width) (b : Buffers) (v : Z) :
  wf b ->
  exists s b',
    UintToHex w b v = Done (s, b') /\
    skipn (hex_len w) (UintToHexBuffer b') = skipn (hex_len w) (UintToHexBuffer b) /\
    UintToDecimalBuffer b' = UintToDecimalBuffer b /\
    IntToDecimalBuffer b' = IntToDecimalBuffer b /\
    Float64ToDecimalBuffer b' = Float64ToDecimalBuffer b.
Proof.
  intros Hwf.
  destruct (UintToHex_spec w b v Hwf) as (buf' & Hrun & _ & _ & Hskip).
  exists (mkSlice AHex 0 (hex_len w)), (set b AHex buf').
  split; [exact Hrun|]. cbn [set UintToHexBuffer UintToDecimalBuffer
                             IntToDecimalBuffer Float64ToDecimalBuffer].
  auto.
Qed.

Lemma UintToHex_frame_witness :
  wf initial /\
  exists s b',
    UintToHex H8 initial 0xA5 = Done (s, b') /\
    skipn (hex_len H8) (UintToHexBuffer b') = skipn (hex_len H8) (UintToHexBuffer initial) /\
    UintToDecimalBuffer b' = UintToDecimalBuffer initial /\
    IntToDecimalBuffer b' = IntToDecimalBuffer initial /\
    Float64ToDecimalBuffer b' = Float64ToDecimalBuffer initial.
Proof.
  split; [repeat split|].
  apply (UintToHex_frame H8 initial 0xA5). repeat split.
Defined.

(** X4: A view returned by one hex encoder aliases the array the next call
    writes: read after a second call, the first slice shows the glyphs of
    the second value over its first bytes, and its own glyphs only beyond the
    width of the second call. *)
Theorem UintToHex_stale_view (w1 w2 : hex_width) (b : Buffers) (v1 v2 : Z) :
  wf b ->
  exists s1 b1 s2 b2,
    UintToHex w1 b v1 = Done (s1, b1) /\
    UintToHex w2 b1 v2 = Done (s2, b2) /\
    contents b1 s1 = map hex_glyph (nibbles (hex_len w1) v1) /\
    contents b2 s1 =
      firstn (hex_len w1) (map hex_glyph (nibbles (hex_len w2) v2))
      ++ skipn (hex_len w2) (map hex_glyph (nibbles (hex_len w1) v1)).
Proof.
  intros Hwf.
  destruct (UintToHex_spec w1 b v1 Hwf) as (buf1 & Hrun1 & Hlen1 & Hfirst1 & _).
  assert (Hwf1 : wf (set b AHex buf1)).
  { apply wf_set; [exact Hwf|]. cbn [get]. rewrite Hlen1. symmetry. apply Hwf. }
  destruct (UintToHex_spec w2 (set b AHex buf1) v2 Hwf1)
    as (buf2 & Hrun2 & Hlen2 & Hfirst2 & Hskip2).
  cbn [set UintToHexBuffer] in Hskip2. rewrite set_set_same in Hrun2.
  exists (mkSlice AHex 0 (hex_len w1)), (set b AHex buf1),
         (mkSlice AHex 0 (hex_len w2)), (set b AHex buf2).
  split; [exact Hrun1|]. split; [exact Hrun2|].
  unfold contents. cbn [hi lo base]. rewrite !get_set_same. cbn [skipn].
  rewrite Nat.sub_0_r. split; [exact Hfirst1|].
  rewrite <- (firstn_skipn (hex_len w2) buf2) at 1.
  rewrite firstn_app, Hfirst2, Hskip2.
  rewrite length_map, length_nibbles.
  f_equal. rewrite <- Hfirst1. apply firstn_skipn_swap.
Qed.

Lemma UintToHex_stale_view_witness :
  wf initial /\
  exists s1 b1 s2 b2,
    UintToHex H32 initial 0xDEADBEEF = Done (s1, b1) /\
    UintToHex H8 b1 0x42 = Done (s2, b2) /\
    contents b1 s1 = map hex_glyph (nibbles (hex_len H32) 0xDEADBEEF) /\
    contents b2 s1 =
      firstn (hex_len H32) (map hex_glyph (nibbles (hex_len H8) 0x42))
      ++ skipn (hex_len H8) (map hex_glyph (nibbles (hex_len H32) 0xDEADBEEF)).
Proof.
  split; [repeat split|].
  apply (UintToHex_stale_view H32 H8 initial 0xDEADBEEF 0x42). repeat split.
Defined.

Lemma nibbles_app (n m : nat) (v : Z) :
  nibbles (n + m) v = nibbles n (Z.shiftr v (4 * Z.of_nat m)) ++ nibbles m v.
Proof.
  induction n as [|n IH]; [reflexivity|].
  cbn [Nat.add nibbles app]. f_equal; [|exact IH].
  rewrite Z.shiftr_shiftr by lia. do 2 f_equal. lia.
Qed.

Lemma nibbles_low (m : nat) : forall (k : nat) (v : Z),
  (m <= k)%nat ->
  nibbles m (Z.land v (Z.ones (4 * Z.of_nat k))) = nibbles m v.
Proof.
  induction m as [|m IH]; intros k v H; [reflexivity|].
  cbn [nibbles]. f_equal; [|apply IH; lia].
  change 15 with (Z.ones 4).
  assert (0 <= 4 * Z.of_nat k) by lia.
  assert (0 <= 4 * Z.of_nat m) by lia.
  Z.bitblast; Z.bitblast_core.
Qed.

(** X5: The encoders of a width and of its double compose: the digits of a
    value are those of its high half followed by those of its low half
    ([Uint16ToHex(v)] is [Uint8ToHex(v >> 8)] then [Uint8ToHex(v & 0xFF)],
    and so on up to 64 bits). *)
Theorem UintToHex_halves (w w2 : hex_width) (b bh bl : Buffers) (v : Z) :
  hex_bits w2 = 2 * hex_bits w -> is_uint (hex_bits w2) v ->
  wf b -> wf bh -> wf bl ->
  exists whole high low,
    view (UintToHex w2 b v) = Done whole /\
    view (UintToHex w bh (Z.shiftr v (hex_bits w))) = Done high /\
    view (UintToHex w bl (Z.land v (2 ^ hex_bits w - 1))) = Done low /\
    is_uint (hex_bits w) (Z.shiftr v (hex_bits w)) /\
    whole = high ++ low.
Proof.
  intros Hw Hv Hb Hbh Hbl.
  do 3 eexists. rewrite !UintToHex_view by assumption.
  split; [reflexivity|]. split; [reflexivity|]. split; [reflexivity|].
  assert (Hlen : hex_len w2 = (hex_len w + hex_len w)%nat)
    by (destruct w, w2; cbn in Hw; try discriminate; reflexivity).
  assert (Hbits : hex_bits w = 4 * Z.of_nat (hex_len w))
    by (destruct w; reflexivity).
  split.
  - unfold is_uint in *. rewrite Z.shiftr_div_pow2 by (destruct w; cbn; lia).
    rewrite Hw in Hv.
    replace (2 ^ (2 * hex_bits w)) with (2 ^ hex_bits w * 2 ^ hex_bits w) in Hv
      by (destruct w; reflexivity).
    assert (0 < 2 ^ hex_bits w) by (destruct w; reflexivity).
    split; [apply Z.div_pos; lia | apply Z.div_lt_upper_bound; lia].
  - rewrite Hlen, nibbles_app, map_app. f_equal.
    + now rewrite Hbits.
    + replace (2 ^ hex_bits w - 1) with (Z.ones (4 * Z.of_nat (hex_len w)))
        by (destruct w; reflexivity).
      now rewrite nibbles_low by lia.
Qed.

Lemma UintToHex_halves_witness :
  hex_bits H16 = 2 * hex_bits H8 /\ is_uint (hex_bits H16) 0xBEEF /\
  wf initial /\ wf initial /\ wf initial /\
  exists whole high low,
    view (UintToHex H16 initial 0xBEEF) = Done whole /\
    view (UintToHex H8 initial (Z.shiftr 0xBEEF (hex_bits H8))) = Done high /\
    view (UintToHex H8 initial (Z.land 0xBEEF (2 ^ hex_bits H8 - 1))) = Done low /\
    is_uint (hex_bits H8) (Z.shiftr 0xBEEF (hex_bits H8)) /\
    whole = high ++ low.
Proof.
  split; [reflexivity|].
  split; [unfold is_uint; simpl; lia|].
  split; [repeat split|]. split; [repeat split|]. split; [repeat split|].
  apply (UintToHex_halves H8 H16 initial initial initial 0xBEEF);
    [reflexivity | unfold is_uint; simpl; lia | repeat split ..].
Defined.

(* ------------------------------------------------------------------ *)
(** ** Decimal encoder: digit count, frame, aliasing *)

(** The digit loop leaves the bytes before its final cursor untouched. *)
Lemma decimal_loop_prefix (i : nat) : forall v buf j buf',
  (i <= length buf)%nat ->
  decimal_loop i v buf = Done (j, buf') ->
  firstn j buf' = firstn j buf.
Proof.
  induction i as [|i IH]; intros v buf j buf' Hi Hrun.
  - cbn [decimal_loop] in Hrun. injection Hrun as <- <-. reflexivity.
  - cbn [decimal_loop] in Hrun. destruct (0 <? v) eqn:E.
    + apply Z.ltb_lt in E.
      rewrite Z.rem_mod_nonneg in Hrun by lia.
      rewrite decimal_glyph in Hrun by (apply Z.mod_pos_bound; lia).
      cbn [bind] in Hrun. rewrite store_in_range in Hrun by lia.
      cbn [bind] in Hrun.
      destruct (decimal_loop_spec i (Z.quot v 10) (upd buf i (48 + v mod 10)))
        as (j0 & buf0 & Hrun0 & _ & Hj0 & _).
      * rewrite length_upd. lia.
      * apply Z.quot_pos; lia.
      * assert (j0 = j) by congruence. subst j0.
        assert (Hu : (i <= length (upd buf i (48 + v mod 10)))%nat)
          by (rewrite length_upd; lia).
        rewrite (IH _ _ _ _ Hu Hrun).
        rewrite upd_split by lia.
        rewrite firstn_app, firstn_firstn, length_firstn.
        replace (Nat.min j i) with j by lia.
        replace (j - Nat.min i (length buf))%nat with 0%nat by lia.
        cbn [firstn]. apply app_nil_r.
    + injection Hrun as <- <-. reflexivity.
Qed.

(** The array after [UintToDecimal]: the digits at its end, the bytes
    before them as they were. *)
Lemma UintToDecimal_array (b : Buffers) (v : Z) :
  wf b -> 0 <= v < 2 ^ 64 ->
  let n := length (decimal v) in
  (0 < n <= 20)%nat /\
  UintToDecimal b v
    = Done (mkSlice ADec (20 - n) 20,
            set b ADec (firstn (20 - n) (UintToDecimalBuffer b) ++ decimal v)).
Proof.
  intros Hwf Hv n.
  pose proof (decimal_length v 20 ltac:(lia) ltac:(lia)) as Hn20.
  pose proof (decimal_nonempty v (proj1 Hv)) as Hne.
  assert (0 < n)%nat as Hn0
    by (subst n; destruct (decimal v); [congruence | simpl; lia]).
  split; [lia|].
  destruct (UintToDecimal_spec b v Hwf Hv) as (buf' & Hrun & Hlen & Hskip).
  fold n in Hrun, Hskip. rewrite Hrun. do 3 f_equal.
  rewrite <- (firstn_skipn (20 - n) buf'), Hskip. f_equal.
  (* the prefix: through the zero case and the loop *)
  assert (Hd : length (UintToDecimalBuffer b) = 20%nat) by apply Hwf.
  unfold UintToDecimal in Hrun. rewrite Hd in Hrun.
  unfold decimal_zero in Hrun.
  destruct (v =? 0) eqn:E.
  - apply Z.eqb_eq in E. subst v.
    rewrite decimal_glyph in Hrun by lia. cbn [bind] in Hrun.
    change (Z.of_nat 20 - 1) with (Z.of_nat 19) in Hrun.
    rewrite store_in_range in Hrun by lia.
    cbn [bind Nat.pred decimal_loop] in Hrun.
    change (0 <? 0) with false in Hrun. cbv iota in Hrun. cbn [bind] in Hrun.
    rewrite slice_from_ok in Hrun by (rewrite get_set_same, length_upd; lia).
    cbn [bind] in Hrun.
    assert (buf' = upd (UintToDecimalBuffer b) 19 (48 + 0)) as ->.
    { assert (set b ADec (upd (UintToDecimalBuffer b) 19 (48 + 0)) = set b ADec buf')
        as Hs by congruence.
      apply (f_equal UintToDecimalBuffer) in Hs. cbn [set UintToDecimalBuffer] in Hs.
      now symmetry. }
    change n with 1%nat. change (20 - 1)%nat with 19%nat.
    apply firstn_upd_at.
  - cbn [bind] in Hrun.
    destruct (decimal_loop 20 v (UintToDecimalBuffer b)) as [[j bufj]|] eqn:Hloop;
      [|discriminate].
    cbn [bind] in Hrun.
    assert (H20 : (20 <= length (UintToDecimalBuffer b))%nat) by lia.
    pose proof (decimal_loop_prefix 20 v _ j bufj H20 Hloop) as Hpre.
    destruct (slice_from (set b ADec bufj) ADec (Z.of_nat j)) as [s|] eqn:Hs;
      [|discriminate].
    cbn [bind] in Hrun.
    assert (bufj = buf') as ->.
    { assert (set b ADec bufj = set b ADec buf') as Hb by congruence.
      apply (f_equal UintToDecimalBuffer) in Hb. exact Hb. }
    assert (s = mkSlice ADec (20 - n) 20) as -> by congruence.
    unfold slice_from in Hs.
    destruct ((0 <=? Z.of_nat j) && (Z.of_nat j <=? Z.of_nat (length (get (set b ADec buf') ADec))))%bool;
      [|discriminate].
    assert (Z.to_nat (Z.of_nat j) = (20 - n)%nat) as Hj by congruence.
    rewrite Nat2Z.id in Hj. subst j. exact Hpre.
Qed.

Lemma digits_count (fuel : nat) : forall v,
  0 < v < 10 ^ Z.of_nat fuel ->
  10 ^ Z.of_nat (Nat.pred (length (digits fuel v))) <= v
    < 10 ^ Z.of_nat (length (digits fuel v)).
Proof.
  induction fuel as [|f IH]; intros v Hv.
  - simpl in Hv. lia.
  - rewrite pow10_succ in Hv. cbn [digits].
    replace (0 <? v) with true by (symmetry; apply Z.ltb_lt; lia).
    rewrite length_app. cbn [length]. rewrite Nat.add_1_r. cbn [Nat.pred].
    pose proof (Z.div_mod v 10 ltac:(lia)) as Hdm.
    pose proof (Z.mod_pos_bound v 10 ltac:(lia)) as Hm.
    destruct (Z.eq_dec (v / 10) 0) as [E|E].
    + rewrite E, digits_zero. cbn [length]. change (10 ^ Z.of_nat 0) with 1.
      change (10 ^ Z.of_nat 1) with 10. lia.
    + assert (Hq : 0 < v / 10 < 10 ^ Z.of_nat f).
      { split.
        - pose proof (Z.div_pos v 10). lia.
        - apply Z.div_lt_upper_bound; lia. }
      specialize (IH _ Hq).
      assert (Hf : (0 < f)%nat) by (destruct f; [simpl in Hq; lia | lia]).
      pose proof (digits_nonempty f (v / 10) (proj1 Hq) Hf) as Hne.
      destruct (length (digits f (v / 10))) as [|k] eqn:Hk.
      * destruct (digits f (v / 10)); [congruence | discriminate].
      * cbn [Nat.pred] in IH. rewrite !pow10_succ in *. lia.
Qed.

(** X6: [UintToDecimal(v)] has between 1 and 20 bytes, as many as [v] has
    decimal digits: [k] bytes exactly when [10^(k-1) <= v < 10^k] (one byte
    for 0). *)
Theorem UintToDecimal_digit_count (b : Buffers) (v : Z) :
  wf b -> is_uint 64 v ->
  exists out,
    view (UintToDecimal b v) = Done out /\
    (1 <= length out <= 20)%nat /\
    (v = 0 -> length out = 1%nat) /\
    (v <> 0 ->
       10 ^ Z.of_nat (Nat.pred (length out)) <= v < 10 ^ Z.of_nat (length out)).
Proof.
  intros Hwf Hv. unfold is_uint in Hv.
  destruct (UintToDecimal_array b v Hwf Hv) as (Hn & Hrun).
  exists (decimal v). split.
  - unfold view. rewrite Hrun. cbn [bind]. f_equal.
    rewrite contents_tail
      by (rewrite get_set_same, length_app, length_firstn;
          destruct Hwf as (_ & Hd & _); lia).
    rewrite get_set_same, skipn_app, length_firstn.
    destruct Hwf as (_ & Hd & _). rewrite Hd.
    replace (Nat.min (20 - length (decimal v)) 20) with (20 - length (decimal v))%nat by lia.
    rewrite Nat.sub_diag. cbn [skipn].
    rewrite skipn_all2 by (rewrite length_firstn; lia). reflexivity.
  - split; [lia|]. unfold decimal. split.
    + intros ->. reflexivity.
    + intros Hne. replace (v =? 0) with false by (symmetry; apply Z.eqb_neq; exact Hne).
      apply digits_count. change (Z.of_nat 20) with 20. lia.
Qed.

Lemma UintToDecimal_digit_count_witness :
  wf initial /\ is_uint 64 18446744073709551615 /\
  exists out,
    view (UintToDecimal initial 18446744073709551615) = Done out /\
    (1 <= length out <= 20)%nat /\
    (18446744073709551615 = 0 -> length out = 1%nat) /\
    (18446744073709551615 <> 0 ->
       10 ^ Z.of_nat (Nat.pred (length out)) <= 18446744073709551615
         < 10 ^ Z.of_nat (length out)).
Proof.
  split; [repeat split|].
  split; [unfold is_uint; lia|].
  apply (UintToDecimal_digit_count initial 18446744073709551615);
    [repeat split | unfold is_uint; lia].
Defined.

Lemma view_UintToDecimal (b : Buffers) (v : Z) :
  wf b -> 0 <= v < 2 ^ 64 -> view (UintToDecimal b v) = Done (decimal v).
Proof.
  intros Hwf Hv.
  destruct (UintToDecimal_spec b v Hwf Hv) as (buf' & Hrun & Hlen & Hskip).
  unfold view. rewrite Hrun. cbn [bind].
  rewrite contents_tail by (rewrite get_set_same; exact Hlen).
  now rewrite get_set_same, Hskip.
Qed.

(** X7: [UintToDecimal] writes only the bytes of the slice it returns: the
    bytes of [UintToDecimalBuffer] before the slice and the three other
    arrays are as before the call. *)
Theorem UintToDecimal_frame (b : Buffers) (v : Z) :
  wf b -> is_uint 64 v ->
  exists s b',
    UintToDecimal b v = Done (s, b') /\
    base s = ADec /\ hi s = 20%nat /\
    firstn (lo s) (UintToDecimalBuffer b') = firstn (lo s) (UintToDecimalBuffer b) /\
    UintToHexBuffer b' = UintToHexBuffer b /\
    IntToDecimalBuffer b' = IntToDecimalBuffer b /\
    Float64ToDecimalBuffer b' = Float64ToDecimalBuffer b.
Proof.
  intros Hwf Hv. unfold is_uint in Hv.
  destruct (UintToDecimal_array b v Hwf Hv) as (Hn & Hrun).
  do 2 eexists. split; [exact Hrun|].
  cbn [base hi lo set UintToHexBuffer UintToDecimalBuffer
       IntToDecimalBuffer Float64ToDecimalBuffer].
  repeat split.
  rewrite firstn_app, firstn_firstn, length_firstn.
  destruct Hwf as (_ & Hd & _). rewrite Hd.
  replace (Nat.min (20 - length (decimal v)) (20 - length (decimal v)))
    with (20 - length (decimal v))%nat by lia.
  replace (20 - length (decimal v) - Nat.min (20 - length (decimal v)) 20)%nat
    with 0%nat by lia.
  cbn [firstn]. apply app_nil_r.
Qed.

Lemma UintToDecimal_frame_witness :
  wf initial /\ is_uint 64 42 /\
  exists s b',
    UintToDecimal initial 42 = Done (s, b') /\
    base s = ADec /\ hi s = 20%nat /\
    firstn (lo s) (UintToDecimalBuffer b') = firstn (lo s) (UintToDecimalBuffer initial) /\
    UintToHexBuffer b' = UintToHexBuffer initial /\
    IntToDecimalBuffer b' = IntToDecimalBuffer initial /\
    Float64ToDecimalBuffer b' = Float64ToDecimalBuffer initial.
Proof.
  split; [repeat split|].
  split; [unfold is_uint; lia|].
  apply (UintToDecimal_frame initial 42); [repeat split | unfold is_uint; lia].
Defined.

(** X8: A view returned by [UintToDecimal] aliases the array the next call
    writes.  Read after a second call, the first slice shows the last
    digits of the second value when that one is at least as long, and
    otherwise its own leading digits followed by the whole second value
    (after 12345 then 67 the first slice reads ["12367"]). *)
Theorem UintToDecimal_stale_view (b : Buffers) (v1 v2 : Z) :
  wf b -> is_uint 64 v1 -> is_uint 64 v2 ->
  exists s1 b1 s2 b2 d1 d2,
    UintToDecimal b v1 = Done (s1, b1) /\
    UintToDecimal b1 v2 = Done (s2, b2) /\
    contents b1 s1 = d1 /\ contents b2 s2 = d2 /\
    contents b2 s1 =
      firstn (length d1 - length d2) d1 ++ skipn (length d2 - length d1) d2.
Proof.
  intros Hwf Hv1 Hv2. unfold is_uint in *.
  destruct (UintToDecimal_array b v1 Hwf Hv1) as (Hn1 & Hrun1).
  assert (Hd : length (UintToDecimalBuffer b) = 20%nat) by apply Hwf.
  set (n1 := length (decimal v1)) in *.
  set (buf1 := firstn (20 - n1) (UintToDecimalBuffer b) ++ decimal v1) in *.
  assert (Hlen1 : length buf1 = 20%nat)
    by (subst buf1; rewrite length_app, length_firstn; fold n1; lia).
  assert (Hwf1 : wf (set b ADec buf1))
    by (apply wf_set; [exact Hwf | cbn [get]; lia]).
  destruct (UintToDecimal_array (set b ADec buf1) v2 Hwf1 Hv2) as (Hn2 & Hrun2).
  set (n2 := length (decimal v2)) in *.
  rewrite set_set_same in Hrun2.
  change (UintToDecimalBuffer (set b ADec buf1)) with buf1 in Hrun2.
  exists (mkSlice ADec (20 - n1) 20), (set b ADec buf1),
         (mkSlice ADec (20 - n2) 20),
         (set b ADec (firstn (20 - n2) buf1 ++ decimal v2)),
         (decimal v1), (decimal v2).
  assert (Hskip1 : skipn (20 - n1) buf1 = decimal v1).
  { subst buf1. rewrite skipn_app, length_firstn, Hd.
    replace (20 - n1 - Nat.min (20 - n1) 20)%nat with 0%nat by lia.
    rewrite skipn_all2 by (rewrite length_firstn; lia). reflexivity. }
  assert (Hlen2 : length (firstn (20 - n2) buf1 ++ decimal v2) = 20%nat)
    by (rewrite length_app, length_firstn; fold n2; lia).
  split; [exact Hrun1|]. split; [exact Hrun2|].
  rewrite !contents_tail by (rewrite get_set_same; assumption).
  rewrite !get_set_same. split; [exact Hskip1|]. split.
  - rewrite skipn_app, length_firstn, Hlen1.
    replace (20 - n2 - Nat.min (20 - n2) 20)%nat with 0%nat by lia.
    rewrite skipn_all2 by (rewrite length_firstn; lia). reflexivity.
  - fold n1 n2. rewrite skipn_app, length_firstn, Hlen1.
    replace (Nat.min (20 - n2) 20) with (20 - n2)%nat by lia.
    replace (20 - n1 - (20 - n2))%nat with (n2 - n1)%nat by lia.
    f_equal. rewrite <- Hskip1.
    replace (n1 - n2)%nat with (20 - n2 - (20 - n1))%nat by lia.
    symmetry. apply firstn_skipn_swap.
Qed.

Lemma UintToDecimal_stale_view_witness :
  wf initial /\ is_uint 64 12345 /\ is_uint 64 67 /\
  exists s1 b1 s2 b2 d1 d2,
    UintToDecimal initial 12345 = Done (s1, b1) /\
    UintToDecimal b1 67 = Done (s2, b2) /\
    contents b1 s1 = d1 /\ contents b2 s2 = d2 /\
    contents b2 s1 =
      firstn (length d1 - length d2) d1 ++ skipn (length d2 - length d1) d2.
Proof.
  split; [repeat split|].
  split; [unfold is_uint; lia|]. split; [unfold is_uint; lia|].
  apply (UintToDecimal_stale_view initial 12345 67);
    [repeat split | unfold is_uint; lia | unfold is_uint; lia].
Defined.

(** X9: [IntToDecimal] is the sign followed by what [UintToDecimal] gives for
    the magnitude: the same digits for a non-negative value, ['-'] before
    them for a negative one (the most negative value apart). *)
Theorem IntToDecimal_sign_magnitude (b b0 : Buffers) (v : Z) :
  wf b -> wf b0 -> - 2 ^ 63 < v < 2 ^ 63 ->
  exists digits_,
    view (UintToDecimal b0 (Z.abs v)) = Done digits_ /\
    view (IntToDecimal b v) = Done (if v <? 0 then 45 :: digits_ else digits_).
Proof.
  intros Hwf Hwf0 Hv. exists (decimal (Z.abs v)).
  split; [apply view_UintToDecimal; [exact Hwf0 | lia]|].
  destruct (IntToDecimal_spec b v Hwf Hv) as (buf' & Hrun & Hlen & Hskip).
  unfold view. rewrite Hrun. cbn [bind]. f_equal.
  rewrite contents_tail by (rewrite get_set_same; exact Hlen).
  rewrite get_set_same, Hskip.
  destruct (v <? 0) eqn:E.
  - apply Z.ltb_lt in E. now rewrite Z.abs_neq by lia.
  - apply Z.ltb_ge in E. now rewrite Z.abs_eq by lia.
Qed.

Lemma IntToDecimal_sign_magnitude_witness :
  wf initial /\ wf initial /\ - 2 ^ 63 < -9223372036854775807 < 2 ^ 63 /\
  exists digits_,
    view (UintToDecimal initial (Z.abs (-9223372036854775807))) = Done digits_ /\
    view (IntToDecimal initial (-9223372036854775807))
      = Done (if -9223372036854775807 <? 0 then 45 :: digits_ else digits_).
Proof.
  split; [repeat split|]. split; [repeat split|]. split; [lia|].
  apply (IntToDecimal_sign_magnitude initial initial (-9223372036854775807));
    [repeat split | repeat split | lia].
Defined.




(* ------------------------------------------------------------------ *)
(** ** Which arrays a call writes *)

Ltac bind_inv H :=
  match type of H with
  | bind ?m _ = Done _ =>
    let E := fresh "E" in
    destruct m eqn:E; cbn [bind] in H; [|discriminate H]
  end.

Lemma UintToDecimal_writes (b b' : Buffers) (v : Z) (s : slice) :
  UintToDecimal b v = Done (s, b') ->
  exists buf, b' = set b ADec buf.
Proof.
  unfold UintToDecimal. intros H.
  bind_inv H. destruct a as [i0 buf0].
  bind_inv H. destruct a as [i1 buf1].
  bind_inv H. exists buf1. congruence.
Qed.

Lemma IntToDecimal_writes (b b' : Buffers) (v : Z) (s : slice) :
  IntToDecimal b v = Done (s, b') ->
  exists buf, b' = set b AInt buf.
Proof.
  unfold IntToDecimal. intros H.
  bind_inv H. destruct a as [i0 buf0].
  bind_inv H. destruct a as [i1 buf1].
  bind_inv H. destruct a as [i2 buf2].
  bind_inv H. exists buf2. congruence.
Qed.

Lemma copy_writes (b : Buffers) (dst src : slice) :
  exists buf, copy b dst src = set b (base dst) buf.
Proof. unfold copy. eauto. Qed.

(** X11: Each decimal encoder writes the arrays of its own family only.
    Whenever the call returns: [IntToDecimal] has left the hex, unsigned
    decimal and float arrays as they were; [UintToDecimalFixed] the hex,
    signed decimal and float arrays; [Float64ToDecimal], which calls
    [IntToDecimal], the hex and unsigned decimal arrays, while
    [IntToDecimalBuffer] is as that inner call left it. *)
Theorem encoders_write_own_arrays (impl : float64 -> Z) (b b' : Buffers) :
  (forall v s,
     IntToDecimal b v = Done (s, b') ->
     UintToHexBuffer b' = UintToHexBuffer b /\
     UintToDecimalBuffer b' = UintToDecimalBuffer b /\
     Float64ToDecimalBuffer b' = Float64ToDecimalBuffer b) /\
  (forall v width s,
     UintToDecimalFixed b v width = Done (s, b') ->
     UintToHexBuffer b' = UintToHexBuffer b /\
     IntToDecimalBuffer b' = IntToDecimalBuffer b /\
     Float64ToDecimalBuffer b' = Float64ToDecimalBuffer b) /\
  (forall x precision s e,
     Float64ToDecimal impl b x precision = Done (s, e, b') ->
     UintToHexBuffer b' = UintToHexBuffer b /\
     UintToDecimalBuffer b' = UintToDecimalBuffer b /\
     exists intBuf b1,
       IntToDecimal b (float_to_int impl 64 x) = Done (intBuf, b1) /\
       IntToDecimalBuffer b' = IntToDecimalBuffer b1).
Proof.
  split; [|split].
  - intros v s H. destruct (IntToDecimal_writes _ _ _ _ H) as (buf & ->).
    repeat split.
  - intros v width s H. unfold UintToDecimalFixed in H.
    bind_inv H. destruct a as [buffer b1].
    destruct (UintToDecimal_writes _ _ _ _ E) as (buf1 & ->).
    destruct (width - len buffer <=? 0).
    + assert (b' = set b ADec buf1) as -> by congruence. repeat split.
    + bind_inv H.
      destruct (copy_writes (set b ADec buf1) a buffer) as (buf2 & Hc).
      assert (Ha : base a = ADec).
      { unfold slice_from in E0.
        destruct ((0 <=? width - len buffer) &&
                  (width - len buffer <=? Z.of_nat (length (get (set b ADec buf1) ADec))))%bool;
          [|discriminate].
        injection E0 as <-. reflexivity. }
      rewrite Hc, Ha in H. bind_inv H. bind_inv H.
      assert (b' = set (set (set b ADec buf1) ADec buf2) ADec a0) as -> by congruence.
      repeat split.
  - intros x precision s e H. unfold Float64ToDecimal in H.
    bind_inv H. destruct a as [intBuf b1].
    destruct (IntToDecimal_writes _ _ _ _ E) as (buf1 & ->).
    bind_inv H.
    destruct (copy_writes (set b AInt buf1) a intBuf) as (buf2 & Hc).
    assert (Ha : base a = AFloat).
    { unfold slice_from in E0.
      destruct ((0 <=? 0) && (0 <=? Z.of_nat (length (get (set b AInt buf1) AFloat))))%bool;
        [|discriminate].
      injection E0 as <-. reflexivity. }
    rewrite Hc, Ha in H. bind_inv H.
    match type of H with
    | (if ?c then _ else _) = _ => destruct c
    end.
    + assert (b' = set (set (set b AInt buf1) AFloat buf2) AFloat a0) as -> by congruence.
      split; [reflexivity|]. split; [reflexivity|].
      exists intBuf, (set b AInt buf1). split; reflexivity.
    + bind_inv H. destruct a1 as [idx buf3]. bind_inv H.
      assert (b' = set (set (set (set b AInt buf1) AFloat buf2) AFloat a0) AFloat buf3)
        as -> by congruence.
      split; [reflexivity|]. split; [reflexivity|].
      exists intBuf, (set b AInt buf1). split; reflexivity.
Qed.

(* ------------------------------------------------------------------ *)
(** ** Float decimal encoder: what a returning call produces *)

Lemma firstn_plus (l : list Z) (a k : nat) :
  firstn (a + k) l = firstn a l ++ firstn k (skipn a l).
Proof.
  revert l. induction a as [|a IH]; intros l; [reflexivity|].
  destruct l as [|h t]; [now rewrite skipn_nil, !firstn_nil|].
  cbn [Nat.add firstn skipn app]. f_equal. apply IH.
Qed.

(** The fractional loop leaves the bytes before its first index
    untouched. *)
Lemma frac_loop_prefix (impl : float64 -> Z) (k : nat) :
  forall (frac : float64) (i : nat) (buf : list Z) idx buf',
  (i + k <= length buf)%nat ->
  frac_loop impl k frac (Z.of_nat i) buf = Done (idx, buf') ->
  firstn i buf' = firstn i buf.
Proof.
  induction k as [|k IH]; intros frac i buf idx buf' Hlen Hrun.
  - cbn [frac_loop] in Hrun. congruence.
  - cbn [frac_loop] in Hrun. rewrite store_in_range in Hrun by lia.
    cbn [bind] in Hrun.
    replace (Z.of_nat i + 1) with (Z.of_nat (S i)) in Hrun by lia.
    apply IH in Hrun; [|rewrite length_upd; lia].
    apply (f_equal (firstn i)) in Hrun.
    rewrite !firstn_firstn in Hrun.
    replace (Nat.min i (S i)) with i in Hrun by lia.
    rewrite Hrun. apply firstn_upd_at.
Qed.

(** The state of the float array when the fractional loop starts: the
    integer part, the separator, and the old bytes behind them. *)
Lemma Float64ToDecimal_success (impl : float64 -> Z) (b : Buffers)
      (x : float64) (precision : Z) (n : nat) (buf' : list Z) :
  wf b -> (0 < n < 8)%nat -> length buf' = 20%nat ->
  IntToDecimal b (float_to_int impl 64 x)
    = Done (mkSlice AInt (20 - n) 20, set b AInt buf') ->
  precision <= 8 - (Z.of_nat n + 1) ->
  let k := Z.to_nat precision in
  let fb := skipn (20 - n) buf' ++ 46 :: skipn (S n) (Float64ToDecimalBuffer b) in
  let frac := f64_sub x (f64_of_int (float_to_int impl 64 x)) in
  exists buf3,
    frac_loop impl k frac (Z.of_nat (S n)) fb = Done (Z.of_nat (S n + k), buf3) /\
    length buf3 = 8%nat /\
    Float64ToDecimal impl b x precision
      = Done (Some (mkSlice AFloat 0 (S n + k)), ErrorCodeNil,
              set (set b AInt buf') AFloat buf3).
Proof.
  intros Hwf Hn Hlen Hrun Hp k fb frac.
  assert (Hf : length (Float64ToDecimalBuffer b) = 8%nat) by apply Hwf.
  assert (Hfb : length fb = 8%nat).
  { subst fb. rewrite length_app, length_skipn, Hlen. cbn [length].
    rewrite length_skipn, Hf. lia. }
  destruct (frac_loop_ok impl k frac (S n) fb) as (buf3 & Hloop & Hlen3);
    [rewrite Hfb; subst k; lia|].
  exists buf3. split; [exact Hloop|]. split; [lia|].
  unfold Float64ToDecimal. rewrite Hrun. cbn [bind].
  rewrite slice_from_ok
    by (rewrite get_set_other by discriminate; cbn [get]; lia).
  cbn [bind]. rewrite get_set_other by discriminate. cbn [get].
  change (Z.to_nat 0) with 0%nat. rewrite Hf.
  assert (Hl : len (mkSlice AInt (20 - n) 20) = Z.of_nat n)
    by (unfold len; cbn [hi lo]; lia).
  rewrite !Hl, !Z.add_0_l.
  assert (Hcopy : copy (set b AInt buf') (mkSlice AFloat 0 8) (mkSlice AInt (20 - n) 20)
                  = set (set b AInt buf') AFloat
                        (skipn (20 - n) buf' ++ skipn n (Float64ToDecimalBuffer b))).
  { unfold copy. cbn [base lo hi].
    rewrite contents_tail by (rewrite get_set_same; exact Hlen).
    rewrite get_set_same, get_set_other by discriminate. cbn [get].
    rewrite length_skipn, Hlen.
    replace (Nat.min (8 - 0) (20 - (20 - n))) with n by lia.
    rewrite firstn_all2 by (rewrite length_skipn; lia).
    unfold blit. cbn [firstn app Nat.add].
    rewrite length_skipn, Hlen. do 3 f_equal. lia. }
  rewrite Hcopy. cbn [set Float64ToDecimalBuffer UintToHexBuffer
                      UintToDecimalBuffer IntToDecimalBuffer].
  assert (Hr : length (skipn (20 - n) buf') = n) by (rewrite length_skipn; lia).
  assert (Hupd : upd (skipn (20 - n) buf' ++ skipn n (Float64ToDecimalBuffer b)) n 46 = fb).
  { rewrite upd_split by (rewrite length_app, Hr, length_skipn, Hf; lia).
    subst fb. rewrite firstn_app, Hr, Nat.sub_diag. cbn [firstn].
    rewrite app_nil_r, firstn_all2 by lia. do 2 f_equal.
    rewrite skipn_app, Hr.
    rewrite (skipn_all2 (skipn (20 - n) buf')) by lia.
    replace (S n - n)%nat with 1%nat by lia. cbn [app].
    rewrite skipn_skipn. f_equal. }
  rewrite store_in_range by (rewrite length_app, Hr, length_skipn, Hf; lia).
  cbn [bind]. rewrite Hupd, Hfb.
  replace (Z.of_nat 8 - (Z.of_nat n + 1) <? precision) with false
    by (symmetry; apply Z.ltb_ge; lia).
  replace (Z.of_nat n + 1) with (Z.of_nat (S n)) by lia.
  fold k. fold frac. rewrite Hloop. cbn [bind].
  unfold slice_to. cbn [get Float64ToDecimalBuffer]. rewrite Hlen3, Hfb.
  replace ((0 <=? Z.of_nat (S n + k)) && (Z.of_nat (S n + k) <=? Z.of_nat 8))%bool
    with true by (symmetry; apply andb_true_iff; split; apply Z.leb_le; subst k; lia).
  cbn [bind]. now rewrite Nat2Z.id.
Qed.

Lemma IntToDecimal_shape (impl : float64 -> Z) (b : Buffers) (x : float64)
      (intBuf : slice) (b1 : Buffers) :
  wf b ->
  IntToDecimal b (float_to_int impl 64 x) = Done (intBuf, b1) ->
  exists (n : nat) buf',
    (0 < n <= 20)%nat /\ length buf' = 20%nat /\
    intBuf = mkSlice AInt (20 - n) 20 /\ b1 = set b AInt buf' /\
    len intBuf = Z.of_nat n /\
    contents b1 intBuf = skipn (20 - n) buf'.
Proof.
  intros Hwf Hrun.
  destruct (IntToDecimal_total b _ Hwf (float_to_int64_range impl x))
    as (n & buf' & Hn & Hrun' & Hlen).
  rewrite Hrun' in Hrun.
  assert (intBuf = mkSlice AInt (20 - n) 20) as -> by congruence.
  assert (b1 = set b AInt buf') as -> by congruence.
  exists n, buf'. repeat split; try assumption; try lia.
  - unfold len. cbn [hi lo]. lia.
  - rewrite contents_tail by (rewrite get_set_same; exact Hlen).
    now rewrite get_set_same.
Qed.

(** X12: When the integer part and the separator fit in the float array, the
    precision check decides the outcome: [TooMuchPrecisionDigitsForFloat64]
    with a nil slice exactly when [precision] exceeds the bytes left behind
    the separator, the no-error code with a slice otherwise (a zero or
    negative precision included). *)
Theorem Float64ToDecimal_precision_check (impl : float64 -> Z) (b : Buffers)
        (x : float64) (precision : Z) (intBuf : slice) (b1 : Buffers) :
  wf b ->
  IntToDecimal b (float_to_int impl 64 x) = Done (intBuf, b1) ->
  len intBuf + 1 <= Z.of_nat (length (Float64ToDecimalBuffer b)) ->
  exists s e b',
    Float64ToDecimal impl b x precision = Done (s, e, b') /\
    (e = ErrorCodeBuffersTooMuchPrecisionDigitsForFloat64 <->
       Z.of_nat (length (Float64ToDecimalBuffer b)) - (len intBuf + 1) < precision) /\
    (e = ErrorCodeBuffersTooMuchPrecisionDigitsForFloat64 -> s = None) /\
    (e <> ErrorCodeBuffersTooMuchPrecisionDigitsForFloat64 ->
       e = ErrorCodeNil /\ s <> None).
Proof.
  intros Hwf Hrun Hfit.
  destruct (Float64ToDecimal_short_integer_part impl b x precision intBuf b1 Hwf Hrun
              ltac:(lia)) as (s & e & b' & Hr & Herr & Hok).
  exists s, e, b'. split; [exact Hr|].
  destruct (Z_lt_le_dec (Z.of_nat (length (Float64ToDecimalBuffer b)) - (len intBuf + 1))
                        precision) as [Hp|Hp].
  - destruct (Herr Hp) as (-> & ->).
    split; [tauto|]. split; [reflexivity|]. intros H. congruence.
  - destruct (Hok Hp) as (-> & Hs).
    split; [split; [discriminate | lia]|].
    split; [discriminate|]. intros _. split; [reflexivity | exact Hs].
Qed.

Lemma Float64ToDecimal_precision_check_witness :
  wf initial /\
  IntToDecimal initial (float_to_int (fun _ => 0) 64 (f64_dyadic 3 (-1)))
    = Done (mkSlice AInt 19 20,
            set initial AInt (upd (IntToDecimalBuffer initial) 19 49)) /\
  len (mkSlice AInt 19 20) + 1 <= Z.of_nat (length (Float64ToDecimalBuffer initial)) /\
  exists s e b',
    Float64ToDecimal (fun _ => 0) initial (f64_dyadic 3 (-1)) 7 = Done (s, e, b') /\
    (e = ErrorCodeBuffersTooMuchPrecisionDigitsForFloat64 <->
       Z.of_nat (length (Float64ToDecimalBuffer initial))
         - (len (mkSlice AInt 19 20) + 1) < 7) /\
    (e = ErrorCodeBuffersTooMuchPrecisionDigitsForFloat64 -> s = None) /\
    (e <> ErrorCodeBuffersTooMuchPrecisionDigitsForFloat64 ->
       e = ErrorCodeNil /\ s <> None).
Proof.
  split; [repeat split|].
  split; [vm_compute; reflexivity|].
  split; [vm_compute; discriminate|].
  apply (Float64ToDecimal_precision_check (fun _ => 0) initial (f64_dyadic 3 (-1)) 7
           (mkSlice AInt 19 20)
           (set initial AInt (upd (IntToDecimalBuffer initial) 19 49)));
    [repeat split | vm_compute; reflexivity | vm_compute; discriminate].
Defined.

(** X13: A call that fits returns the slice [Float64ToDecimalBuffer[:n+1+p]]:
    the [n] bytes [IntToDecimal] produced for the integer part, the
    separator ['.'], then exactly [p] bytes, [p] the precision, or none
    when the precision is zero or negative (the view then ends with the
    separator). *)
Theorem Float64ToDecimal_layout (impl : float64 -> Z) (b : Buffers)
        (x : float64) (precision : Z) (intBuf : slice) (b1 : Buffers) :
  wf b ->
  IntToDecimal b (float_to_int impl 64 x) = Done (intBuf, b1) ->
  len intBuf + 1 + Z.max 0 precision <= Z.of_nat (length (Float64ToDecimalBuffer b)) ->
  exists s b' frac,
    Float64ToDecimal impl b x precision = Done (Some s, ErrorCodeNil, b') /\
    base s = AFloat /\ lo s = 0%nat /\
    contents b' s = contents b1 intBuf ++ 46 :: frac /\
    length frac = Z.to_nat precision.
Proof.
  intros Hwf Hrun Hfit.
  assert (Hf : length (Float64ToDecimalBuffer b) = 8%nat) by apply Hwf.
  destruct (IntToDecimal_shape impl b x intBuf b1 Hwf Hrun)
    as (n & buf' & Hn & Hlen & -> & -> & Hl & Hc).
  rewrite Hl, Hf in Hfit.
  destruct (Float64ToDecimal_success impl b x precision n buf' Hwf ltac:(lia) Hlen Hrun
              ltac:(lia)) as (buf3 & Hloop & Hlen3 & Hres).
  set (k := Z.to_nat precision) in *.
  exists (mkSlice AFloat 0 (S n + k)), (set (set b AInt buf') AFloat buf3),
         (firstn k (skipn (S n) buf3)).
  split; [exact Hres|]. split; [reflexivity|]. split; [reflexivity|].
  assert (Hr : length (skipn (20 - n) buf') = n) by (rewrite length_skipn; lia).
  split.
  - unfold contents at 1. cbn [hi lo base]. rewrite get_set_same. cbn [skipn].
    rewrite Nat.sub_0_r, firstn_plus.
    apply frac_loop_prefix in Hloop.
    + rewrite Hloop, Hc.
      rewrite firstn_app, Hr.
      rewrite firstn_all2 by lia.
      replace (S n - n)%nat with 1%nat by lia. cbn [firstn].
      rewrite <- app_assoc. reflexivity.
    + rewrite length_app, Hr. cbn [length]. rewrite length_skipn, Hf. lia.
  - rewrite length_firstn, length_skipn, Hlen3. lia.
Qed.

Lemma Float64ToDecimal_layout_witness :
  wf initial /\
  IntToDecimal initial (float_to_int (fun _ => 0) 64 (f64_dyadic 3 (-1)))
    = Done (mkSlice AInt 19 20,
            set initial AInt (upd (IntToDecimalBuffer initial) 19 49)) /\
  len (mkSlice AInt 19 20) + 1 + Z.max 0 0
    <= Z.of_nat (length (Float64ToDecimalBuffer initial)) /\
  exists s b' frac,
    Float64ToDecimal (fun _ => 0) initial (f64_dyadic 3 (-1)) 0
      = Done (Some s, ErrorCodeNil, b') /\
    base s = AFloat /\ lo s = 0%nat /\
    contents b' s
      = contents (set initial AInt (upd (IntToDecimalBuffer initial) 19 49))
                 (mkSlice AInt 19 20) ++ 46 :: frac /\
    length frac = Z.to_nat 0.
Proof.
  split; [repeat split|].
  split; [vm_compute; reflexivity|].
  split; [vm_compute; discriminate|].
  apply (Float64ToDecimal_layout (fun _ => 0) initial (f64_dyadic 3 (-1)) 0
           (mkSlice AInt 19 20)
           (set initial AInt (upd (IntToDecimalBuffer initial) 19 49)));
    [repeat split | vm_compute; reflexivity | vm_compute; discriminate].
Defined.

(** On a fractional part that is zero every iteration stores ['0'] and
    leaves a zero fractional part. *)
Lemma frac_loop_zero (impl : float64 -> Z) (k : nat) :
  forall (s : bool) (i : nat) (buf : list Z),
  (i + k <= length buf)%nat ->
  exists buf',
    frac_loop impl k (S754_zero s) (Z.of_nat i) buf = Done (Z.of_nat (i + k), buf') /\
    firstn k (skipn i buf') = repeat 48 k.
Proof.
  induction k as [|k IH]; intros s i buf H.
  - exists buf. cbn [frac_loop]. rewrite Nat.add_0_r. auto.
  - cbn [frac_loop].
    assert (Hd : float_to_int impl intSize (f64_mul (S754_zero s) (f64_of_int 10)) = 0)
      by (destruct s; reflexivity).
    rewrite !Hd.
    change (wrap 8 (swrap intSize (48 + 0))) with 48.
    assert (Hz : exists s', f64_sub (f64_mul (S754_zero s) (f64_of_int 10)) (f64_of_int 0)
                            = S754_zero s')
      by (destruct s; eexists; reflexivity).
    destruct Hz as (s' & ->).
    rewrite store_in_range by lia. cbn [bind].
    replace (Z.of_nat i + 1) with (Z.of_nat (S i)) by lia.
    destruct (IH s' (S i) (upd buf i 48)) as (buf' & Hrun & Hz);
      [rewrite length_upd; lia|].
    exists buf'. split; [rewrite Hrun; do 3 f_equal; lia|].
    assert (Hpre : firstn (S i) buf' = firstn (S i) (upd buf i 48)).
    { apply (frac_loop_prefix impl k (S754_zero s') (S i) (upd buf i 48)
               (Z.of_nat (S i + k)) buf'); [rewrite length_upd; lia | exact Hrun]. }
    assert (Hlen' : length buf' = length buf).
    { destruct (frac_loop_ok impl k (S754_zero s') (S i) (upd buf i 48))
        as (buf2 & Hrun2 & Hlen2); [rewrite length_upd; lia|].
      assert (buf2 = buf') by congruence. subst buf2.
      now rewrite length_upd in Hlen2. }
    assert (Hhd : skipn i buf' = 48 :: skipn (S i) buf').
    { rewrite <- (firstn_skipn (S i) buf') at 1. rewrite Hpre.
      rewrite firstn_succ_upd by lia.
      rewrite <- app_assoc, skipn_app, length_firstn.
      replace (Nat.min i (length buf)) with i by lia.
      rewrite skipn_all2 by (rewrite length_firstn; lia).
      rewrite Nat.sub_diag. reflexivity. }
    rewrite Hhd. cbn [firstn repeat]. now rewrite Hz.
Qed.

(** X14: For a value without fractional part ([value - float64(int64(value))]
    is zero) a call that fits returns the integer part, the separator and
    [precision] digits ['0']: [Float64ToDecimal(3.0, 2)] is ["3.00"]. *)
Theorem Float64ToDecimal_integral (impl : float64 -> Z) (b : Buffers)
        (x : float64) (precision : Z) (intBuf : slice) (b1 : Buffers) (sz : bool) :
  wf b ->
  f64_sub x (f64_of_int (float_to_int impl 64 x)) = S754_zero sz ->
  IntToDecimal b (float_to_int impl 64 x) = Done (intBuf, b1) ->
  len intBuf + 1 + Z.max 0 precision <= Z.of_nat (length (Float64ToDecimalBuffer b)) ->
  float_view (Float64ToDecimal impl b x precision)
    = Done (Some (contents b1 intBuf ++ 46 :: repeat 48 (Z.to_nat precision)),
            ErrorCodeNil).
Proof.
  intros Hwf Hzero Hrun Hfit.
  assert (Hf : length (Float64ToDecimalBuffer b) = 8%nat) by apply Hwf.
  destruct (IntToDecimal_shape impl b x intBuf b1 Hwf Hrun)
    as (n & buf' & Hn & Hlen & -> & -> & Hl & Hc).
  rewrite Hl, Hf in Hfit.
  destruct (Float64ToDecimal_success impl b x precision n buf' Hwf ltac:(lia) Hlen Hrun
              ltac:(lia)) as (buf3 & Hloop & Hlen3 & Hres).
  set (k := Z.to_nat precision) in *.
  rewrite Hzero in Hloop.
  assert (Hr : length (skipn (20 - n) buf') = n) by (rewrite length_skipn; lia).
  match type of Hloop with
  | frac_loop _ _ _ _ ?fb = _ =>
    assert (Hfb : length fb = 8%nat)
      by (rewrite length_app, Hr; cbn [length]; rewrite length_skipn, Hf; lia);
    destruct (frac_loop_zero impl k sz (S n) fb ltac:(lia)) as (buf4 & Hrun4 & Hz);
    assert (Hpre : firstn (S n) buf3 = firstn (S n) fb)
      by (apply (frac_loop_prefix impl k (S754_zero sz) (S n) fb
                   (Z.of_nat (S n + k)) buf3); [lia | exact Hloop])
  end.
  assert (buf4 = buf3) by congruence. subst buf4.
  rewrite Hres. unfold float_view. cbn [bind]. do 3 f_equal.
  unfold contents at 1. cbn [hi lo base]. rewrite get_set_same. cbn [skipn].
  rewrite Nat.sub_0_r, firstn_plus, Hpre, Hz, Hc.
  rewrite firstn_app, Hr, firstn_all2 by lia.
  replace (S n - n)%nat with 1%nat by lia. cbn [firstn].
  rewrite <- app_assoc. reflexivity.
Qed.

Lemma Float64ToDecimal_integral_witness :
  wf initial /\
  f64_sub (f64_of_int 3) (f64_of_int (float_to_int (fun _ => 0) 64 (f64_of_int 3)))
    = S754_zero false /\
  IntToDecimal initial (float_to_int (fun _ => 0) 64 (f64_of_int 3))
    = Done (mkSlice AInt 19 20,
            set initial AInt (upd (IntToDecimalBuffer initial) 19 51)) /\
  len (mkSlice AInt 19 20) + 1 + Z.max 0 2
    <= Z.of_nat (length (Float64ToDecimalBuffer initial)) /\
  float_view (Float64ToDecimal (fun _ => 0) initial (f64_of_int 3) 2)
    = Done (Some (contents (set initial AInt (upd (IntToDecimalBuffer initial) 19 51))
                           (mkSlice AInt 19 20)
                  ++ 46 :: repeat 48 (Z.to_nat 2)),
            ErrorCodeNil).
Proof.
  split; [repeat split|].
  split; [vm_compute; reflexivity|].
  split; [vm_compute; reflexivity|].
  split; [vm_compute; discriminate|].
  apply (Float64ToDecimal_integral (fun _ => 0) initial (f64_of_int 3) 2
           (mkSlice AInt 19 20)
           (set initial AInt (upd (IntToDecimalBuffer initial) 19 51)) false);
    [repeat split | vm_compute; reflexivity | vm_compute; reflexivity
     | vm_compute; discriminate].
Defined.

(* ------------------------------------------------------------------ *)
(** ** Byte-order codec: signed integers *)

Lemma encode_signed_unsigned (w : width) (o : order) (v : Z) (buffer : list Z) :
  encode_signed w o v buffer = encode w o (wrap (bits w) v) buffer.
Proof. destruct w, o; reflexivity. Qed.

Lemma decode_signed_unsigned (w : width) (o : order) (data : list Z) :
  decode_signed w o data = decode_via (decode w o) 0 (swrap (bits w)) data.
Proof. destruct w, o; reflexivity. Qed.

Lemma decode_via_ok {A : Type} (decoder : list Z -> outcome (Z * ErrorCode))
      (zero : A) (conv : Z -> A) (data : list Z) (u : Z) :
  decoder data = Done (u, ErrorCodeNil) ->
  decode_via decoder zero conv data = Done (conv u, ErrorCodeNil).
Proof. intros H. unfold decode_via. rewrite H. reflexivity. Qed.

Lemma decode_via_error {A : Type} (decoder : list Z -> outcome (Z * ErrorCode))
      (zero : A) (conv : Z -> A) (data : list Z) (u : Z) :
  decoder data = Done (u, ErrorCodeBuffersInvalidBufferSize) ->
  decode_via decoder zero conv data = Done (zero, ErrorCodeBuffersInvalidBufferSize).
Proof. intros H. unfold decode_via. rewrite H. reflexivity. Qed.

Lemma wrap_range (w : width) (v : Z) : is_uint (bits w) (wrap (bits w) v).
Proof.
  unfold is_uint, wrap. apply Z.mod_pos_bound. destruct w; reflexivity.
Qed.

Lemma swrap_wrap (w : width) (v : Z) :
  is_int (bits w) v -> swrap (bits w) (wrap (bits w) v) = v.
Proof.
  unfold is_int, swrap, wrap. intros Hv.
  assert (H2 : 2 ^ bits w = 2 * 2 ^ (bits w - 1)) by (destruct w; reflexivity).
  assert (Hp : 0 < 2 ^ (bits w - 1)) by (destruct w; reflexivity).
  rewrite Zplus_mod_idemp_l.
  rewrite Z.mod_small by lia. lia.
Qed.

(** X15: The signed codec round-trips: for every width, byte order, signed
    value of the width and buffer of at least [W/8] bytes, [IntWToBytes]
    succeeds and [BytesToIntW] of the buffer it leaves returns the value;
    the bytes are those of the two's-complement pattern, which the
    unsigned decoder returns. *)
Theorem signed_codec_roundtrip (w : width) (o : order) (v : Z) (buffer : list Z) :
  is_int (bits w) v -> (nbytes w <= length buffer)%nat ->
  exists buffer',
    encode_signed w o v buffer = Done (ErrorCodeNil, buffer') /\
    decode_signed w o buffer' = Done (v, ErrorCodeNil) /\
    decode w o buffer' = Done (v mod 2 ^ bits w, ErrorCodeNil).
Proof.
  intros Hv Hlen.
  exists (wire w o (wrap (bits w) v) ++ skipn (nbytes w) buffer).
  pose proof (decode_wire w o (wrap (bits w) v) (skipn (nbytes w) buffer)
                (wrap_range w v)) as Hd.
  split; [|split].
  - rewrite encode_signed_unsigned. apply encode_long. exact Hlen.
  - rewrite decode_signed_unsigned, (decode_via_ok _ _ _ _ _ Hd).
    now rewrite swrap_wrap.
  - exact Hd.
Qed.

Lemma signed_codec_roundtrip_witness :
  is_int (bits W16) (-2) /\ (nbytes W16 <= length [9; 9; 9])%nat /\
  exists buffer',
    encode_signed W16 BigEndian (-2) [9; 9; 9] = Done (ErrorCodeNil, buffer') /\
    decode_signed W16 BigEndian buffer' = Done (-2, ErrorCodeNil) /\
    decode W16 BigEndian buffer' = Done ((-2) mod 2 ^ bits W16, ErrorCodeNil).
Proof.
  split; [unfold is_int; simpl; lia|].
  split; [simpl; lia|].
  apply (signed_codec_roundtrip W16 BigEndian (-2) [9; 9; 9]);
    [unfold is_int; simpl; lia | simpl; lia].
Defined.

(** X16: The signed codec passes the buffer-size error of the unsigned codec
    through: [InvalidBufferSize] exactly when the buffer is shorter than
    [W/8] bytes, with the buffer untouched by the encoder and the value 0
    from the decoder; the no-error code otherwise. *)
Theorem signed_codec_buffer_size (w : width) (o : order) (v : Z) (buffer : list Z) :
  (exists e buffer',
     encode_signed w o v buffer = Done (e, buffer') /\
     (e = ErrorCodeBuffersInvalidBufferSize <-> (length buffer < nbytes w)%nat) /\
     (e = ErrorCodeBuffersInvalidBufferSize -> buffer' = buffer) /\
     (e <> ErrorCodeBuffersInvalidBufferSize ->
        e = ErrorCodeNil /\ length buffer' = length buffer /\
        skipn (nbytes w) buffer' = skipn (nbytes w) buffer)) /\
  (exists x e,
     decode_signed w o buffer = Done (x, e) /\
     (e = ErrorCodeBuffersInvalidBufferSize <-> (length buffer < nbytes w)%nat) /\
     (e = ErrorCodeBuffersInvalidBufferSize -> x = 0) /\
     (e <> ErrorCodeBuffersInvalidBufferSize -> e = ErrorCodeNil /\ is_int (bits w) x)).
Proof.
  pose proof InvalidBufferSize_not_Nil as Hne.
  rewrite encode_signed_unsigned, decode_signed_unsigned.
  destruct (Nat.lt_ge_cases (length buffer) (nbytes w)) as [Hs|Hl].
  - split.
    + exists ErrorCodeBuffersInvalidBufferSize, buffer.
      split; [apply encode_short; exact Hs|].
      split; [tauto|]. split; [tauto|]. intros H. congruence.
    + exists 0, ErrorCodeBuffersInvalidBufferSize.
      split; [apply (decode_via_error _ _ _ _ 0), decode_short; exact Hs|].
      split; [tauto|]. split; [tauto|]. intros H. congruence.
  - split.
    + exists ErrorCodeNil, (wire w o (wrap (bits w) v) ++ skipn (nbytes w) buffer).
      split; [apply encode_long; exact Hl|].
      split; [split; intros H; [congruence | lia]|].
      split; [intros H; congruence|]. intros _.
      split; [reflexivity|].
      pose proof (length_wire w o (wrap (bits w) v)) as Hw.
      split.
      * rewrite length_app, length_skipn, Hw. lia.
      * rewrite skipn_app, Hw, Nat.sub_diag. cbn [skipn].
        rewrite skipn_all2 by lia. reflexivity.
    + destruct (decode_long w o buffer Hl) as (x & Hx).
      exists (swrap (bits w) x), ErrorCodeNil.
      split; [apply decode_via_ok; exact Hx|].
      split; [split; intros H; [congruence | lia]|].
      split; [intros H; congruence|]. intros _. split; [reflexivity|].
      unfold is_int, swrap.
      assert (H2 : 2 ^ bits w = 2 * 2 ^ (bits w - 1)) by (destruct w; reflexivity).
      assert (Hp : 0 < 2 ^ (bits w - 1)) by (destruct w; reflexivity).
      pose proof (Z.mod_pos_bound (x + 2 ^ (bits w - 1)) (2 ^ bits w) ltac:(lia)).
      lia.
Qed.

(* ------------------------------------------------------------------ *)
(** ** Byte-order codec: the two orders, and what a decoder reads *)

(** X17: The little-endian encoder writes the bytes the big-endian encoder
    writes, in reverse order. *)
Theorem encode_orders_reversed (w : width) (v : Z) (bufB bufL : list Z) :
  (nbytes w <= length bufB)%nat -> (nbytes w <= length bufL)%nat ->
  exists bufB' bufL',
    encode w BigEndian v bufB = Done (ErrorCodeNil, bufB') /\
    encode w LittleEndian v bufL = Done (ErrorCodeNil, bufL') /\
    firstn (nbytes w) bufL' = rev (firstn (nbytes w) bufB').
Proof.
  intros HB HL.
  exists (wire w BigEndian v ++ skipn (nbytes w) bufB),
         (wire w LittleEndian v ++ skipn (nbytes w) bufL).
  split; [apply encode_long; exact HB|].
  split; [apply encode_long; exact HL|].
  rewrite !firstn_app, !length_wire, Nat.sub_diag. cbn [firstn].
  rewrite !app_nil_r.
  rewrite !firstn_all2 by (rewrite length_wire; lia).
  reflexivity.
Qed.

Lemma encode_orders_reversed_witness :
  (nbytes W32 <= length [0; 0; 0; 0])%nat /\ (nbytes W32 <= length [7; 7; 7; 7; 7])%nat /\
  exists bufB' bufL',
    encode W32 BigEndian 0x01020304 [0; 0; 0; 0] = Done (ErrorCodeNil, bufB') /\
    encode W32 LittleEndian 0x01020304 [7; 7; 7; 7; 7] = Done (ErrorCodeNil, bufL') /\
    firstn (nbytes W32) bufL' = rev (firstn (nbytes W32) bufB').
Proof.
  split; [simpl; lia|]. split; [simpl; lia|].
  apply (encode_orders_reversed W32 0x01020304 [0; 0; 0; 0] [7; 7; 7; 7; 7]);
    simpl; lia.
Defined.

(** X18: A decoder reads the first [W/8] bytes of its input and nothing else,
    and the little-endian decoder reads them as the big-endian decoder
    reads their reversal. *)
Theorem decode_leading_bytes (w : width) (o : order) (data : list Z) :
  (nbytes w <= length data)%nat ->
  decode w o data = decode w o (firstn (nbytes w) data) /\
  decode w LittleEndian data = decode w BigEndian (rev (firstn (nbytes w) data)).
Proof.
  intros H.
  destruct w; cbn [nbytes] in *;
    repeat (destruct data as [|? data]; [cbn [length] in H; lia|]);
    (split; [destruct o|]); cbn [firstn rev app];
    unfold_codec; repeat size_guard; run_index; reflexivity.
Qed.

Lemma decode_leading_bytes_witness :
  (nbytes W16 <= length [0x12; 0x34; 0x56])%nat /\
  decode W16 BigEndian [0x12; 0x34; 0x56]
    = decode W16 BigEndian (firstn (nbytes W16) [0x12; 0x34; 0x56]) /\
  decode W16 LittleEndian [0x12; 0x34; 0x56]
    = decode W16 BigEndian (rev (firstn (nbytes W16) [0x12; 0x34; 0x56])).
Proof.
  split; [simpl; lia|].
  apply (decode_leading_bytes W16 BigEndian [0x12; 0x34; 0x56]). simpl; lia.
Defined.

(* ------------------------------------------------------------------ *)
(** ** Byte-order codec: encoding what was decoded *)

Lemma is_byte_wrap (d : Z) : is_byte d -> d = d mod 2 ^ 8.
Proof. unfold is_byte. intros H. symmetry. apply Z.mod_small. lia. Qed.

Lemma byte_lor (x y k : Z) :
  byte_at (Z.lor x y) k = Z.lor (byte_at x k) (byte_at y k).
Proof. unfold byte_at, wrap. Z.bitblast; Z.bitblast_core. Qed.

Lemma byte_shl_same (w d k : Z) :
  is_byte d -> 0 <= k -> k + 8 <= w -> byte_at (shl w d k) k = d.
Proof.
  intros Hd Hk Hw. rewrite (is_byte_wrap d Hd) at 2.
  rewrite (is_byte_wrap d Hd) at 1.
  unfold byte_at, shl, wrap. assert (0 <= w) by lia.
  Z.bitblast; Z.bitblast_core.
Qed.

Lemma byte_shl_other (w d k k' : Z) :
  is_byte d -> 0 <= k -> 0 <= k' -> 0 <= w -> k' + 8 <= k \/ k + 8 <= k' ->
  byte_at (shl w d k') k = 0.
Proof.
  intros Hd Hk Hk' Hw Hkk. rewrite (is_byte_wrap d Hd).
  unfold byte_at, shl, wrap.
  Z.bitblast; Z.bitblast_core.
  destruct Hkk; [lia | rewrite Z.testbit_neg_r by lia; reflexivity].
Qed.

Lemma byte_plain_same (d : Z) : is_byte d -> byte_at d 0 = d.
Proof.
  intros Hd. unfold byte_at, wrap. rewrite Z.shiftr_0_r.
  symmetry. apply is_byte_wrap. exact Hd.
Qed.

Lemma byte_plain_other (d k : Z) : is_byte d -> 8 <= k -> byte_at d k = 0.
Proof.
  intros Hd Hk. rewrite (is_byte_wrap d Hd). unfold byte_at, wrap.
  Z.bitblast; Z.bitblast_core.
Qed.

Lemma lor_uint (w a b : Z) :
  0 <= w -> is_uint w a -> is_uint w b -> is_uint w (Z.lor a b).
Proof.
  unfold is_uint. intros Hw Ha Hb.
  assert (E : Z.lor a b = Z.lor a b mod 2 ^ w).
  { rewrite <- (Z.mod_small a (2 ^ w)) at 1 by lia.
    rewrite <- (Z.mod_small b (2 ^ w)) at 1 by lia.
    Z.bitblast; Z.bitblast_core. }
  rewrite E. apply Z.mod_pos_bound. apply Z.pow_pos_nonneg; lia.
Qed.

Lemma shl_uint (w d k : Z) : 0 <= w -> is_uint w (shl w d k).
Proof.
  intros Hw. unfold is_uint, shl, wrap. apply Z.mod_pos_bound.
  apply Z.pow_pos_nonneg; lia.
Qed.

Lemma byte_uint (w d : Z) : 8 <= w -> is_byte d -> is_uint w d.
Proof.
  unfold is_byte, is_uint. intros Hw Hd.
  assert (2 ^ 8 <= 2 ^ w) by (apply Z.pow_le_mono_r; lia). lia.
Qed.

Ltac byte_of_lor :=
  rewrite ?byte_lor;
  repeat first
    [ rewrite byte_shl_same by (assumption || lia)
    | rewrite byte_shl_other by (assumption || lia)
    | rewrite byte_plain_same by assumption
    | rewrite byte_plain_other by (assumption || lia) ];
  rewrite ?Z.lor_0_l, ?Z.lor_0_r; reflexivity.

Ltac uint_of_lor :=
  repeat first
    [ apply lor_uint; [lia | |]
    | apply shl_uint; lia
    | apply byte_uint; [lia | assumption] ].

Ltac split_bytes H :=
  repeat match type of H with
         | Forall _ (_ :: _) =>
           let Hd := fresh "Hd" in
           let Ht := fresh "Ht" in
           apply Forall_cons_iff in H; destruct H as [Hd H]
         end.

(** X19: Decoding and encoding are inverse on the wire as well: when the
    first [W/8] elements of the buffer are bytes, the decoder returns a
    value of the width, and encoding that value into the same buffer
    leaves the buffer exactly as it was. *)
Theorem decode_then_encode (w : width) (o : order) (data : list Z) :
  (nbytes w <= length data)%nat -> Forall is_byte (firstn (nbytes w) data) ->
  exists v,
    decode w o data = Done (v, ErrorCodeNil) /\
    is_uint (bits w) v /\
    encode w o v data = Done (ErrorCodeNil, data).
Proof.
  intros Hlen Hbytes.
  destruct w; cbn [nbytes] in *;
    repeat (destruct data as [|? data]; [cbn [length] in Hlen; lia|]);
    cbn [firstn] in Hbytes; split_bytes Hbytes; clear Hbytes;
    destruct o.
  all: eexists;
    (split; [unfold_codec; size_guard; run_index; reflexivity|]);
    (split; [cbn [bits]; uint_of_lor|]);
    rewrite encode_long by (cbn [length nbytes]; lia);
    cbn [wire nbytes big_endian rev app skipn];
    repeat f_equal; byte_of_lor.
Qed.

Lemma decode_then_encode_witness :
  (nbytes W32 <= length [0xDE; 0xAD; 0xBE; 0xEF; 0x00])%nat /\
  Forall is_byte (firstn (nbytes W32) [0xDE; 0xAD; 0xBE; 0xEF; 0x00]) /\
  exists v,
    decode W32 LittleEndian [0xDE; 0xAD; 0xBE; 0xEF; 0x00] = Done (v, ErrorCodeNil) /\
    is_uint (bits W32) v /\
    encode W32 LittleEndian v [0xDE; 0xAD; 0xBE; 0xEF; 0x00]
      = Done (ErrorCodeNil, [0xDE; 0xAD; 0xBE; 0xEF; 0x00]).
Proof.
  split; [simpl; lia|].
  split; [repeat constructor; unfold is_byte; lia|].
  apply (decode_then_encode W32 LittleEndian [0xDE; 0xAD; 0xBE; 0xEF; 0x00]);
    [simpl; lia | repeat constructor; unfold is_byte; lia].
Defined.

(* ------------------------------------------------------------------ *)
(** ** Byte-order codec: floats *)

Lemma digits2_pos_bounds (m : positive) :
  2 ^ (Zpos (digits2_pos m) - 1) <= Zpos m < 2 ^ Zpos (digits2_pos m).
Proof.
  induction m as [p IH|p IH|]; cbn [digits2_pos].
  - rewrite Pos2Z.inj_succ.
    replace (Z.succ (Zpos (digits2_pos p)) - 1) with (Z.succ (Zpos (digits2_pos p) - 1)) by lia.
    rewrite !Z.pow_succ_r by lia. lia.
  - rewrite Pos2Z.inj_succ.
    replace (Z.succ (Zpos (digits2_pos p)) - 1) with (Z.succ (Zpos (digits2_pos p) - 1)) by lia.
    rewrite !Z.pow_succ_r by lia. lia.
  - change (2 ^ (1 - 1)) with 1. change (2 ^ 1) with 2. lia.
Qed.

(** The three fields are read back from the word they were joined in. *)
Lemma float_join_split (mw ew : Z) (s : bool) (E M : Z) :
  0 <= mw -> 0 <= ew -> 0 <= M < 2 ^ mw -> 0 <= E < 2 ^ ew ->
  float_join mw ew s E M mod 2 ^ mw = M /\
  (float_join mw ew s E M / 2 ^ mw) mod 2 ^ ew = E /\
  Z.testbit (float_join mw ew s E M) (ew + mw) = s /\
  0 <= float_join mw ew s E M < 2 ^ (ew + mw + 1).
Proof.
  intros Hmw Hew HM HE. unfold float_join.
  assert (Ha : 0 < 2 ^ mw) by (apply Z.pow_pos_nonneg; lia).
  assert (Hc : 0 < 2 ^ ew) by (apply Z.pow_pos_nonneg; lia).
  rewrite Z.pow_add_r by lia.
  replace (2 ^ (ew + mw)) with (2 ^ ew * 2 ^ mw) by (rewrite Z.pow_add_r; lia).
  change (2 ^ 1) with 2.
  set (a := 2 ^ mw) in *. set (c := 2 ^ ew) in *.
  set (S := if s then 1 else 0).
  assert (HS : 0 <= S <= 1) by (subst S; destruct s; lia).
  replace ((if s then c * a else 0) + E * a + M) with ((S * c + E) * a + M)
    by (subst S; destruct s; lia).
  assert (Hdiv : ((S * c + E) * a + M) / a = S * c + E).
  { symmetry. apply (Z.div_unique _ _ _ M); lia. }
  split; [|split; [|split]].
  - symmetry. apply (Z.mod_unique _ _ (S * c + E)); lia.
  - rewrite Hdiv. symmetry. apply (Z.mod_unique _ _ S); lia.
  - rewrite Z.testbit_odd, Z.shiftr_div_pow2 by lia.
    replace (2 ^ (ew + mw)) with (c * a) by (subst a c; rewrite Z.pow_add_r; lia).
    assert (Hq : ((S * c + E) * a + M) / (c * a) = S).
    { symmetry. apply (Z.div_unique _ _ _ (E * a + M)); nia. }
    rewrite Hq. subst S. destruct s; reflexivity.
  - assert (0 <= E * a <= (c - 1) * a) by nia.
    assert (0 <= S * c * a <= c * a) by nia.
    assert (0 < c * a) by nia.
    replace (2 ^ (ew + mw + 1)) with (2 * (c * a))
      by (subst a c; rewrite !Z.pow_add_r by lia; change (2 ^ 1) with 2; lia).
    nia.
Qed.

(** [frombits] inverts [bits] on every float of the format; the word is a
    [W]-bit value. *)
Lemma float_frombits_bits (mw ew : Z) (x : spec_float) :
  1 < mw -> 1 < ew ->
  valid_binary (mw + 1) (2 ^ (ew - 1)) x = true ->
  float_frombits mw ew (float_bits mw ew x) = x /\
  is_uint (ew + mw + 1) (float_bits mw ew x).
Proof.
  intros Hmw Hew Hvalid.
  assert (H2 : 2 ^ ew = 2 * 2 ^ (ew - 1)).
  { replace ew with (Z.succ (ew - 1)) at 1 by lia. apply Z.pow_succ_r. lia. }
  assert (Hb : 2 <= 2 ^ (ew - 1)).
  { change 2 with (2 ^ 1) at 1. apply Z.pow_le_mono_r; lia. }
  assert (Ha : 0 < 2 ^ mw) by (apply Z.pow_pos_nonneg; lia).
  assert (Hh : 2 ^ mw = 2 * 2 ^ (mw - 1)).
  { replace mw with (Z.succ (mw - 1)) at 1 by lia. apply Z.pow_succ_r. lia. }
  assert (Hq : 2 <= 2 ^ (mw - 1)).
  { change 2 with (2 ^ 1) at 1. apply Z.pow_le_mono_r; lia. }
  unfold float_frombits, float_bits, is_uint.
  destruct x as [s|s| |s m e].
  - destruct (float_join_split mw ew s 0 0) as (HM & HE & HS & HU); try lia.
    rewrite HM, HE, HS. cbn. split; [reflexivity | exact HU].
  - destruct (float_join_split mw ew s (2 ^ ew - 1) 0) as (HM & HE & HS & HU); try lia.
    rewrite HM, HE, HS.
    replace (2 ^ ew - 1 =? 0) with false by (symmetry; apply Z.eqb_neq; lia).
    rewrite Z.eqb_refl. cbn. split; [reflexivity | exact HU].
  - destruct (float_join_split mw ew false (2 ^ ew - 1) (2 ^ (mw - 1) + 1))
      as (HM & HE & HS & HU); try lia.
    rewrite HM, HE.
    replace (2 ^ ew - 1 =? 0) with false by (symmetry; apply Z.eqb_neq; lia).
    rewrite Z.eqb_refl.
    replace (2 ^ (mw - 1) + 1 =? 0) with false by (symmetry; apply Z.eqb_neq; lia).
    split; [reflexivity | exact HU].
  - cbn [valid_binary] in Hvalid. unfold bounded, canonical_mantissa, fexp, emin in Hvalid.
    apply andb_true_iff in Hvalid. destruct Hvalid as [Hcan Hmax].
    apply Z.eqb_eq in Hcan. apply Z.leb_le in Hmax.
    pose proof (digits2_pos_bounds m) as Hd.
    set (d := Zpos (digits2_pos m)) in *.
    destruct (Zpos m <? 2 ^ mw) eqn:Esub.
    + apply Z.ltb_lt in Esub.
      assert (Hdm : d <= mw).
      { destruct (Z_le_gt_dec d mw) as [H|H]; [exact H|].
        assert (2 ^ mw <= 2 ^ (d - 1)) by (apply Z.pow_le_mono_r; lia). lia. }
      assert (He : e = 1 - (2 ^ (ew - 1) - 1) - mw) by lia.
      destruct (float_join_split mw ew s 0 (Zpos m)) as (HM & HE & HS & HU); try lia.
      rewrite HM, HE, HS. cbn [Z.eqb]. rewrite He. split; [reflexivity | exact HU].
    + apply Z.ltb_ge in Esub.
      assert (Hdm : mw < d).
      { destruct (Z_lt_le_dec mw d) as [H|H]; [exact H|].
        assert (2 ^ d <= 2 ^ mw) by (apply Z.pow_le_mono_r; lia). lia. }
      assert (Hdp : d = mw + 1) by lia.
      assert (Hm2 : Zpos m < 2 * 2 ^ mw).
      { rewrite Hdp in Hd. rewrite Z.pow_add_r in Hd by lia.
        change (2 ^ 1) with 2 in Hd. lia. }
      destruct (float_join_split mw ew s (e + mw + (2 ^ (ew - 1) - 1)) (Zpos m - 2 ^ mw))
        as (HM & HE & HS & HU); try lia.
      rewrite HM, HE, HS.
      replace (e + mw + (2 ^ (ew - 1) - 1) =? 0) with false
        by (symmetry; apply Z.eqb_neq; lia).
      replace (e + mw + (2 ^ (ew - 1) - 1) =? 2 ^ ew - 1) with false
        by (symmetry; apply Z.eqb_neq; lia).
      replace (Zpos m - 2 ^ mw + 2 ^ mw) with (Zpos m) by lia.
      split; [do 2 f_equal; lia | exact HU].
Qed.

Lemma encode_float_unsigned (f : float_width) (o : order) (x : spec_float)
      (buffer : list Z) :
  encode_float f o x buffer
    = encode (float_as_width f) o
             (match f with F32 => Float32bits x | F64 => Float64bits x end) buffer.
Proof. destruct f, o; reflexivity. Qed.

Lemma decode_float_unsigned (f : float_width) (o : order) (data : list Z) :
  decode_float f o data
    = decode_via (decode (float_as_width f) o) (S754_zero false)
                 (match f with F32 => Float32frombits | F64 => Float64frombits end) data.
Proof. destruct f, o; reflexivity. Qed.

Lemma float_bits_roundtrip (f : float_width) (x : spec_float) :
  valid_binary (float_prec f) (float_emax f) x = true ->
  (match f with F32 => Float32frombits | F64 => Float64frombits end)
    (match f with F32 => Float32bits x | F64 => Float64bits x end) = x /\
  is_uint (bits (float_as_width f))
          (match f with F32 => Float32bits x | F64 => Float64bits x end).
Proof.
  intros Hvalid. destruct f.
  - apply (float_frombits_bits 23 8 x); [lia | lia | exact Hvalid].
  - apply (float_frombits_bits 52 11 x); [lia | lia | exact Hvalid].
Qed.

(** X20: The float codec round-trips: for [float32] and [float64], both byte
    orders, every float of the format and every buffer of at least [W/8]
    bytes, [FloatWToBytes] succeeds and [BytesToFloatW] of the buffer it
    leaves returns the same float, signed zeros, subnormals and infinities
    included (a NaN comes back as a NaN). *)
Theorem float_codec_roundtrip (f : float_width) (o : order) (x : spec_float)
        (buffer : list Z) :
  valid_binary (float_prec f) (float_emax f) x = true ->
  (nbytes (float_as_width f) <= length buffer)%nat ->
  exists buffer',
    encode_float f o x buffer = Done (ErrorCodeNil, buffer') /\
    decode_float f o buffer' = Done (x, ErrorCodeNil).
Proof.
  intros Hvalid Hlen.
  destruct (float_bits_roundtrip f x Hvalid) as (Hinv & Hrange).
  set (u := match f with F32 => Float32bits x | F64 => Float64bits x end) in *.
  exists (wire (float_as_width f) o u ++ skipn (nbytes (float_as_width f)) buffer).
  split.
  - rewrite encode_float_unsigned. apply encode_long. exact Hlen.
  - rewrite decode_float_unsigned.
    pose proof (decode_wire (float_as_width f) o u
                  (skipn (nbytes (float_as_width f)) buffer) Hrange) as Hd.
    apply (decode_via_ok _ (S754_zero false)
             (match f with F32 => Float32frombits | F64 => Float64frombits end)) in Hd.
    rewrite Hd. do 2 f_equal. exact Hinv.
Qed.

Lemma float_codec_roundtrip_witness :
  valid_binary (float_prec F64) (float_emax F64) (f64_dyadic (-9) (-2)) = true /\
  (nbytes (float_as_width F64) <= length [0; 0; 0; 0; 0; 0; 0; 0])%nat /\
  exists buffer',
    encode_float F64 LittleEndian (f64_dyadic (-9) (-2)) [0; 0; 0; 0; 0; 0; 0; 0]
      = Done (ErrorCodeNil, buffer') /\
    decode_float F64 LittleEndian buffer' = Done (f64_dyadic (-9) (-2), ErrorCodeNil).
Proof.
  split; [reflexivity|]. split; [simpl; lia|].
  apply (float_codec_roundtrip F64 LittleEndian (f64_dyadic (-9) (-2))
           [0; 0; 0; 0; 0; 0; 0; 0]); [reflexivity | simpl; lia].
Defined.

(** X21: The float codec passes the buffer-size error of the integer codec
    through: [InvalidBufferSize] exactly when the buffer is shorter than
    [W/8] bytes, with the buffer untouched by the encoder and the float
    [+0] from the decoder; the no-error code otherwise, with only the first
    [W/8] bytes written. *)
Theorem float_codec_buffer_size (f : float_width) (o : order) (x : spec_float)
        (buffer : list Z) :
  (exists e buffer',
     encode_float f o x buffer = Done (e, buffer') /\
     (e = ErrorCodeBuffersInvalidBufferSize <->
        (length buffer < nbytes (float_as_width f))%nat) /\
     (e = ErrorCodeBuffersInvalidBufferSize -> buffer' = buffer) /\
     (e <> ErrorCodeBuffersInvalidBufferSize ->
        e = ErrorCodeNil /\ length buffer' = length buffer /\
        skipn (nbytes (float_as_width f)) buffer'
          = skipn (nbytes (float_as_width f)) buffer)) /\
  (exists y e,
     decode_float f o buffer = Done (y, e) /\
     (e = ErrorCodeBuffersInvalidBufferSize <->
        (length buffer < nbytes (float_as_width f))%nat) /\
     (e = ErrorCodeBuffersInvalidBufferSize -> y = S754_zero false) /\
     (e <> ErrorCodeBuffersInvalidBufferSize -> e = ErrorCodeNil)).
Proof.
  pose proof InvalidBufferSize_not_Nil as Hne.
  rewrite encode_float_unsigned, decode_float_unsigned.
  set (w := float_as_width f).
  set (u := match f with F32 => Float32bits x | F64 => Float64bits x end).
  destruct (Nat.lt_ge_cases (length buffer) (nbytes w)) as [Hs|Hl].
  - split.
    + exists ErrorCodeBuffersInvalidBufferSize, buffer.
      split; [apply encode_short; exact Hs|].
      split; [tauto|]. split; [tauto|]. intros H. congruence.
    + exists (S754_zero false), ErrorCodeBuffersInvalidBufferSize.
      split; [apply (decode_via_error _ _ _ _ 0), decode_short; exact Hs|].
      split; [tauto|]. split; [tauto|]. intros H. congruence.
  - split.
    + exists ErrorCodeNil, (wire w o u ++ skipn (nbytes w) buffer).
      split; [apply encode_long; exact Hl|].
      split; [split; intros H; [congruence | lia]|].
      split; [intros H; congruence|]. intros _.
      split; [reflexivity|].
      pose proof (length_wire w o u) as Hw.
      split.
      * rewrite length_app, length_skipn, Hw. lia.
      * rewrite skipn_app, Hw, Nat.sub_diag. cbn [skipn].
        rewrite skipn_all2 by lia. reflexivity.
    + destruct (decode_long w o buffer Hl) as (y & Hy).
      eexists. exists ErrorCodeNil.
      split; [apply decode_via_ok; exact Hy|].
      split; [split; intros H; [congruence | lia]|].
      split; [intros H; congruence|]. intros _. reflexivity.
Qed.

(* ------------------------------------------------------------------ *)
(** ** Hex indices as base-16 digits *)

Lemma UintToHexIndex_in_range (value : Z) (n p : nat) :
  (p < n)%nat ->
  UintToHexIndex value (4 * Z.of_nat n) (Z.of_nat p)
    = Z.land (Z.shiftr value (4 * Z.of_nat (n - 1 - p))) 15.
Proof.
  intros H. unfold UintToHexIndex.
  replace (Z.quot (4 * Z.of_nat n) 4) with (Z.of_nat n)
    by (rewrite Z.mul_comm, Z.quot_mul; lia).
  replace ((Z.of_nat p <? 0) || (Z.of_nat p >? Z.of_nat n - 1))%bool with false.
  - do 2 f_equal. lia.
  - symmetry. apply orb_false_iff. rewrite Z.gtb_ltb.
    split; apply Z.ltb_ge; lia.
Qed.

Lemma UintToHexIndex_positions (value : Z) (n : nat) :
  map (fun p => UintToHexIndex value (4 * Z.of_nat n) (Z.of_nat p)) (seq 0 n)
    = nibbles n value.
Proof.
  assert (H : forall k : nat, (k <= n)%nat ->
            map (fun p => UintToHexIndex value (4 * Z.of_nat n) (Z.of_nat p))
                (seq (n - k) k) = nibbles k value).
  { induction k as [|k IH]; intros Hk; [reflexivity|].
    cbn [seq map nibbles]. f_equal.
    - rewrite UintToHexIndex_in_range by lia.
      replace (n - 1 - (n - S k))%nat with k by lia. reflexivity.
    - replace (S (n - S k)) with (n - k)%nat by lia. apply IH. lia. }
  specialize (H n (Nat.le_refl n)). now rewrite Nat.sub_diag in H.
Qed.

(** X2: For a size of [4n] bits the indices [UintToHexIndex] returns at the
    positions [0 .. n-1] are the [n] low base-16 digits of the value, most
    significant first: mapped through the hex alphabet they denote
    [value mod 16^n], for any number of digits and not only the four
    widths the encoders use. *)
Theorem UintToHexIndex_digits (value : Z) (n : nat) :
  0 <= value ->
  hex_value
    (map hex_glyph
       (map (fun p => UintToHexIndex value (4 * Z.of_nat n) (Z.of_nat p)) (seq 0 n)))
    = Some (value mod 16 ^ Z.of_nat n) /\
  Forall (fun i => 0 <= i <= 15)
    (map (fun p => UintToHexIndex value (4 * Z.of_nat n) (Z.of_nat p)) (seq 0 n)).
Proof.
  intros Hv. rewrite UintToHexIndex_positions. split.
  - unfold hex_value. rewrite hex_value_nibbles. f_equal; lia.
  - clear Hv. induction n as [|n IH]; cbn [nibbles]; constructor; [|exact IH].
    pose proof (nibble_range (Z.shiftr value (4 * Z.of_nat n))). lia.
Qed.

Lemma UintToHexIndex_digits_witness :
  0 <= 0xABCDE /\
  hex_value
    (map hex_glyph
       (map (fun p => UintToHexIndex 0xABCDE (4 * Z.of_nat 3) (Z.of_nat p)) (seq 0 3)))
    = Some (0xABCDE mod 16 ^ Z.of_nat 3) /\
  Forall (fun i => 0 <= i <= 15)
    (map (fun p => UintToHexIndex 0xABCDE (4 * Z.of_nat 3) (Z.of_nat p)) (seq 0 3)).
Proof.
  split; [lia|].
  apply (UintToHexIndex_digits 0xABCDE 3). lia.
Defined.
